(** * The WebRTC signaling relay and the client-side negotiation manager

    A shallow embedding of
      - [WebRTC/webrtc-signaling-server.js]  (module [Relay]), and
      - [WebRTC/webrtc-complete-example.js]  (module [Manager]),
    followed by the properties of the session-negotiation specification that
    can be stated about them.

    Conventions of the embedding.
      - A JavaScript value that came out of [JSON.parse], or that is handed to
        [JSON.stringify], is a [JsVal]; a property that is absent
        ([undefined]) is [None] in an [option JsVal].
      - A plain object is a finite map from property names to values, so
        [{...message, from: id}] is an insertion into that map.
      - The [clients] map of the server is a JavaScript [Map]: an association
        list in insertion order whose keys are unique.
      - Handlers are synchronous: each one is a function from the state to the
        new state and the list of effects it performed, in program order.
      - What the runtime decides (the result of [JSON.parse], of
        [Math.random().toString(36)], of the calls on the peer connection) is
        an input of the handler. *)

Set Warnings "-register-all".
From Stdlib Require Import Floats.PrimFloat.
From stdpp Require Import gmap strings list fin_maps pretty.

Open Scope string_scope.

(* ===================================================================== *)
(** * JavaScript values *)
(* ===================================================================== *)

Module Js.

(** The values of JSON: [null], booleans, numbers (IEEE doubles), strings,
    arrays and plain objects. *)
Inductive JsVal :=
| JNull
| JBool (b : bool)
| JNum (x : float)
| JStr (s : string)
| JArr (l : list JsVal)
| JObj (o : gmap string JsVal).

(** What a statement can throw. [Rejected] is the rejection of a promise of
    the peer connection, with the reason the browser gave. *)
Inductive JsError :=
| TypeError
| SyntaxError
| Error (message : string)
| Rejected (reason : string).

(** The completion of an evaluation: a value, or a thrown error. *)
Inductive Completion (A : Type) :=
| Normal (a : A)
| Throw (e : JsError).
Arguments Normal {A} a.
Arguments Throw {A} e.

Definition bind {A B} (c : Completion A) (k : A -> Completion B) : Completion B :=
  match c with
  | Normal a => k a
  | Throw e => Throw e
  end.

(** [ToBoolean]: [undefined], [null], [false], [0], [-0], [NaN] and [""] are
    falsy, every other value is truthy. *)
Definition truthy (v : option JsVal) : bool :=
  match v with
  | None => false
  | Some JNull => false
  | Some (JBool b) => b
  | Some (JNum x) => negb (PrimFloat.eqb x 0 || negb (PrimFloat.eqb x x))
  | Some (JStr s) => negb (String.eqb s "")
  | Some (JArr _) | Some (JObj _) => true
  end.

(** The single-character strings of a string, in order. *)
Fixpoint chars (s : string) : list JsVal :=
  match s with
  | EmptyString => []
  | String c s' => JStr (String c EmptyString) :: chars s'
  end.

(** The elements of an array or string under their index names. *)
Definition indexed (l : list JsVal) : gmap string JsVal :=
  list_to_map (imap (fun i x => (pretty i, x)) l).

(** The own enumerable properties of a value: the properties of an object,
    the indices of an array or of a string, nothing for the other
    primitives.  This is what the spread [{...v}] copies. *)
Definition own_props (v : JsVal) : gmap string JsVal :=
  match v with
  | JObj o => o
  | JArr l => indexed l
  | JStr s => indexed (chars s)
  | JNull | JBool _ | JNum _ => ∅
  end.

(** [v.k] for a property name [k] that no prototype defines ([type], [to],
    [roomId], [offer], [answer], [candidate]): reading a property of [null]
    throws a [TypeError]; an absent property reads as [undefined]. *)
Definition get_prop (v : JsVal) (k : string) : Completion (option JsVal) :=
  match v with
  | JNull => Throw TypeError
  | _ => Normal (own_props v !! k)
  end.

(** The object literal [{k1: v1, ..., kn: vn}] (distinct names). *)
Definition obj (l : list (string * JsVal)) : JsVal := JObj (list_to_map l).

(** [v === s] for a string literal [s]. *)
Definition strict_eq_str (v : option JsVal) (s : string) : bool :=
  match v with
  | Some (JStr t) => String.eqb t s
  | _ => false
  end.

(** Whether [ToString(v)] throws, as it does inside a template literal
    [`... ${v} ...`].  An object is converted by its [toString] and then its
    [valueOf]: an object of JSON that has a property [toString] of its own
    has no callable one (no value of JSON is a function), and the [valueOf]
    it has or inherits does not give a primitive, so the conversion throws a
    [TypeError]; without such a property [Object.prototype.toString]
    answers.  An array is converted by [join], which converts every element
    that is not [null]; the primitives never throw. *)
Fixpoint to_string_throws (v : JsVal) : bool :=
  match v with
  | JObj o =>
      match o !! "toString" with
      | Some _ => true
      | None => false
      end
  | JArr l => existsb to_string_throws l
  | JNull | JBool _ | JNum _ | JStr _ => false
  end.

(** The same for a value that may be [undefined], which converts to
    ["undefined"]. *)
Definition interpolation_throws (v : option JsVal) : bool :=
  match v with
  | Some x => to_string_throws x
  | None => false
  end.

(** [s.substring(start, end)] for [start <= end]. *)
Definition substring (s : string) (start end_ : nat) : string :=
  String.substring start (end_ - start) s.

End Js.

(* ===================================================================== *)
(** * The signaling server: webrtc-signaling-server.js *)
(* ===================================================================== *)

Module Relay.
Import Js.

(** [ws.readyState]. *)
Inductive ReadyState := CONNECTING | OPEN | CLOSING | CLOSED.

(** A [WebSocket] object of the [ws] library: its identity and the state of
    the connection. *)
Record WebSocket := { conn : nat; readyState : ReadyState }.

(** [client.readyState === WebSocket.OPEN]. *)
Definition is_open (client : WebSocket) : bool :=
  match readyState client with
  | OPEN => true
  | _ => false
  end.

(** ** The JavaScript [Map] *)

Section JsMap.
Context {V : Type}.

(** [m.get(k)]. *)
Fixpoint map_get (k : string) (m : list (string * V)) : option V :=
  match m with
  | [] => None
  | (k', v) :: m' => if String.eqb k k' then Some v else map_get k m'
  end.

(** [m.set(k, v)]: an existing key keeps its place, a new key goes last. *)
Fixpoint map_set (k : string) (v : V) (m : list (string * V)) : list (string * V) :=
  match m with
  | [] => [(k, v)]
  | (k', v') :: m' =>
      if String.eqb k k' then (k, v) :: m' else (k', v') :: map_set k v m'
  end.

(** [m.delete(k)]: removes the entry of [k], if any; never throws. *)
Definition map_delete (k : string) (m : list (string * V)) : list (string * V) :=
  List.filter (fun kv => negb (String.eqb k (fst kv))) m.

(** [Array.from(m.keys())]. *)
Definition map_keys (m : list (string * V)) : list string := List.map fst m.

(** A [Map] holds one entry per key. *)
Definition wf (m : list (string * V)) : Prop := NoDup (map_keys m).

End JsMap.

(** [const clients = new Map()]: client id to socket. *)
Definition Clients : Type := list (string * WebSocket).

(** ** Effects *)

Inductive Level := log | warn | error.

(** What a handler does to the outside: it sends a frame on the socket that
    [clients] holds under [clientId] (the frame is given by the value handed
    to [JSON.stringify]), or it writes a line to the console. *)
Inductive Effect :=
| Send (clientId : string) (data : JsVal)
| Console (level : Level) (text : string).

(** The frames sent to [clientId], in order. *)
Fixpoint sent_to (clientId : string) (effs : list Effect) : list JsVal :=
  match effs with
  | [] => []
  | Send c d :: effs' =>
      if String.eqb c clientId then d :: sent_to clientId effs' else sent_to clientId effs'
  | Console _ _ :: effs' => sent_to clientId effs'
  end.

(** All the frames sent, with their recipients, in order. *)
Fixpoint sends (effs : list Effect) : list (string * JsVal) :=
  match effs with
  | [] => []
  | Send c d :: effs' => (c, d) :: sends effs'
  | Console _ _ :: effs' => sends effs'
  end.

(** ** The functions of the server *)

(** [generateClientId]: the two arguments are the strings that the two
    evaluations of [Math.random().toString(36)] produced. *)
Definition generateClientId (r1 r2 : string) : string :=
  substring r1 2 15 ++ substring r2 2 15.

(** [console.warn(`Client ${clientId} not found or not connected`)]: the
    template literal converts [clientId] to a string first, which can
    throw. *)
Definition warn_not_found (clientId : JsVal) : list Effect * Completion unit :=
  if to_string_throws clientId then ([], Throw TypeError)
  else ([Console warn "Client not found or not connected"], Normal tt).

(** [sendToClient(clientId, message)]: the effects it performs and its
    completion.  The keys of [clients] are strings, so [clients.get] finds
    nothing for a [clientId] that is not a string. *)
Definition sendToClient (clients : Clients) (clientId : JsVal) (message : JsVal)
  : list Effect * Completion unit :=
  match clientId with
  | JStr k =>
      match map_get k clients with
      | Some client =>
          if is_open client then ([Send k message], Normal tt)
          else warn_not_found clientId
      | None => warn_not_found clientId
      end
  | _ => warn_not_found clientId
  end.

(** [broadcast(message, excludeClientId)]: [clients.forEach] visits the
    entries in insertion order. *)
Definition broadcast (clients : Clients) (message : JsVal) (excludeClientId : string)
  : list Effect :=
  flat_map (fun '(clientId, client) =>
              if negb (String.eqb clientId excludeClientId) && is_open client
              then [Send clientId message]
              else [])
           clients.

(** [{...message, from: fromClientId}]. *)
Definition with_from (message : JsVal) (fromClientId : string) : JsVal :=
  JObj (<["from" := JStr fromClientId]> (own_props message)).

(** [handleMessage(fromClientId, message)]: the effects it performs and its
    completion.  It reads [clients] and does not change it.  It throws when
    reading [message.type] throws, before anything is written, and when a
    template literal of a console line throws: that of the warning of
    [sendToClient], or that of the [join-room] line, which converts
    [message.roomId]. *)
Definition handleMessage (clients : Clients) (fromClientId : string) (message : JsVal)
  : list Effect * Completion unit :=
  match get_prop message "type" with
  | Throw e => ([], Throw e)
  | Normal type =>
      let '(effs, r) :=
        if strict_eq_str type "offer" || strict_eq_str type "answer"
           || strict_eq_str type "ice-candidate" then
          match own_props message !! "to" with
          | Some to =>
              if truthy (Some to)
              then sendToClient clients to (with_from message fromClientId)
              else (broadcast clients message fromClientId, Normal tt)
          | None => (broadcast clients message fromClientId, Normal tt)
          end
        else if strict_eq_str type "join-room" then
          if interpolation_throws (own_props message !! "roomId")
          then ([], Throw TypeError)
          else ([Console log "joined room"], Normal tt)
        else if strict_eq_str type "list-peers" then
          let peerIds :=
            List.filter (fun id => negb (String.eqb id fromClientId))
                        (map_keys clients) in
          sendToClient clients (JStr fromClientId)
            (obj [("type", JStr "peers-list"); ("peers", JArr (List.map JStr peerIds))])
        else
          ([Console warn "Unknown message type:"], Normal tt)
      in
      (Console log "Message from" :: effs, r)
  end.

(** [wss.on('connection', (ws, req) => ...)], up to the registration of the
    per-socket handlers.  Returns the id the closure binds. *)
Definition wss_on_connection (clients : Clients) (ws : WebSocket) (r1 r2 : string)
  : Clients * string * list Effect :=
  let clientId := generateClientId r1 r2 in
  let clients := map_set clientId ws clients in
  (clients, clientId,
   [Console log "Client connected";
    Send clientId (obj [("type", JStr "client-id"); ("id", JStr clientId)])]).

(** [ws.on('message', (message) => ...)] of the connection whose closure
    binds [clientId].  [parsed] is the completion of [JSON.parse(message)].
    The [catch] takes every error, of the parser or of [handleMessage], and
    writes its line after what [handleMessage] had done before it threw. *)
Definition ws_on_message (clients : Clients) (clientId : string)
  (parsed : Completion JsVal) : Clients * list Effect :=
  match parsed with
  | Throw _ => (clients, [Console error "Error parsing message:"])
  | Normal message =>
      match handleMessage clients clientId message with
      | (effs, Normal _) => (clients, effs)
      | (effs, Throw _) =>
          (clients, (effs ++ [Console error "Error parsing message:"])%list)
      end
  end.

(** [ws.on('close', () => ...)]. *)
Definition ws_on_close (clients : Clients) (clientId : string) : Clients * list Effect :=
  let clients := map_delete clientId clients in
  (clients,
   Console log "Client disconnected" ::
   broadcast clients
     (obj [("type", JStr "peer-disconnected"); ("peerId", JStr clientId)]) clientId).

(** [ws.on('error', (error) => ...)]. *)
Definition ws_on_error (clients : Clients) (clientId : string) : Clients * list Effect :=
  (clients, [Console error "Error for client"]).

(** ** The server as a machine over its events *)

(** The events of the Node.js event loop that concern the server.  Each one
    runs its handler to completion before the next one is taken.
    [Connection n r1 r2] is the connection of the socket [n], which is open
    at that moment, with the two strings [Math.random().toString(36)]
    evaluates to in the handler.  [SocketState] is the network changing the
    state of the socket registered under an id; no code of the server runs
    for it. *)
Inductive Event :=
| Connection (socket : nat) (r1 r2 : string)
| Message (clientId : string) (parsed : Completion JsVal)
| Close (clientId : string)
| SocketError (clientId : string)
| SocketState (clientId : string) (rs : ReadyState).

Definition set_readyState (clients : Clients) (clientId : string) (rs : ReadyState)
  : Clients :=
  List.map (fun '(k, ws) =>
              if String.eqb k clientId then (k, {| conn := conn ws; readyState := rs |})
              else (k, ws))
           clients.

Definition step (clients : Clients) (ev : Event) : Clients * list Effect :=
  match ev with
  | Connection n r1 r2 =>
      let ws := {| conn := n; readyState := OPEN |} in
      let '(clients', _, effs) := wss_on_connection clients ws r1 r2 in (clients', effs)
  | Message clientId parsed => ws_on_message clients clientId parsed
  | Close clientId => ws_on_close clients clientId
  | SocketError clientId => ws_on_error clients clientId
  | SocketState clientId rs => (set_readyState clients clientId rs, [])
  end.

(** The run of the server over a sequence of events: every event with the
    effects of its handler, and the final state. *)
Fixpoint run (clients : Clients) (evs : list Event) : Clients * list (Event * list Effect) :=
  match evs with
  | [] => (clients, [])
  | ev :: evs' =>
      let '(clients', effs) := step clients ev in
      let '(final, tr) := run clients' evs' in
      (final, (ev, effs) :: tr)
  end.

(** The server starts with [clients] empty. *)
Definition start : Clients := [].

End Relay.

(* ===================================================================== *)
(** * The client: class WebRTCManager of webrtc-complete-example.js *)
(* ===================================================================== *)

Module Manager.
Import Js.

(** The method calls the manager makes on [this.peerConnection].  The
    constructors [RTCSessionDescription] and [RTCIceCandidate] belong to the
    call that receives their result: [SetRemoteDescription d] is
    [setRemoteDescription(new RTCSessionDescription(d))]. *)
Inductive Call :=
| AddTrack (kind : string)
| CreateOffer
| CreateAnswer
| SetLocalDescription (desc : option JsVal)
| SetRemoteDescription (desc : option JsVal)
| AddIceCandidate (candidate : option JsVal).

Inductive Level := log | warn | error.

(** What the manager does to the outside, in program order: a call on the
    peer connection, [this.signaling.send(data)], a console line. *)
Inductive Effect :=
| Called (c : Call)
| SignalingSend (data : JsVal)
| Console (level : Level) (text : string).

Section WithPeerConnection.

(** [RTCPeerConnection] is an opaque capability of the browser: an object
    with a hidden state [PC].  [pc_new] is [new RTCPeerConnection(RTC_CONFIG)];
    [pc_call pc c] is the call [c] on the object in state [pc]: the state it
    leaves, and the value it returns (or its promise resolves to), or the
    error it throws (or its promise rejects with). *)
Variable PC : Type.
Variable pc_new : PC.
Variable pc_call : PC -> Call -> PC * Completion (option JsVal).

(** The fields the constructor sets.  A stream is the list of the kinds of
    its tracks; a video element is its [srcObject]. *)
Record WebRTCManager := {
  localVideo : option (list string);
  remoteVideo : option (list string);
  localStream : option (list string);
  peerConnection : option PC;
  signaling_connected : bool;
  isInitiator : bool;
  dataChannel : option string
}.

(** [new WebRTCManager(localVideoElement, remoteVideoElement)]. *)
Definition new_manager : WebRTCManager :=
  {| localVideo := None; remoteVideo := None; localStream := None;
     peerConnection := None; signaling_connected := false;
     isInitiator := false; dataChannel := None |}.

Definition set_peerConnection (pc : option PC) (m : WebRTCManager) : WebRTCManager :=
  {| localVideo := localVideo m; remoteVideo := remoteVideo m;
     localStream := localStream m; peerConnection := pc;
     signaling_connected := signaling_connected m;
     isInitiator := isInitiator m; dataChannel := dataChannel m |}.

Definition set_isInitiator (b : bool) (m : WebRTCManager) : WebRTCManager :=
  {| localVideo := localVideo m; remoteVideo := remoteVideo m;
     localStream := localStream m; peerConnection := peerConnection m;
     signaling_connected := signaling_connected m;
     isInitiator := b; dataChannel := dataChannel m |}.

(** ** The monad of the methods

    A method runs on the manager [this]: it leaves a manager, the effects it
    performed, and its completion.  An [await] is the call it waits for,
    taken to its completion before the method goes on; no other method runs
    on the manager in between.  The statements a method executes before its
    first [await] (the test of [this.peerConnection], the [throw], the
    assignment to [isInitiator], the call of [setRemoteDescription]) run
    without interruption in JavaScript as they do here. *)
Definition M (A : Type) : Type :=
  WebRTCManager -> WebRTCManager * list Effect * Completion A.

Definition ret {A} (a : A) : M A := fun m => (m, [], Normal a).

Definition throw {A} (e : JsError) : M A := fun m => (m, [], Throw e).

Definition mbind {A B} (c : M A) (k : A -> M B) : M B :=
  fun m =>
    match c m with
    | (m1, effs1, Normal a) =>
        let '(m2, effs2, r) := k a m1 in (m2, (effs1 ++ effs2)%list, r)
    | (m1, effs1, Throw e) => (m1, effs1, Throw e)
    end.

(** [try { body } catch (error) { handler(error) }]. *)
Definition try_catch {A} (body : M A) (handler : JsError -> M A) : M A :=
  fun m =>
    match body m with
    | (m1, effs1, Normal a) => (m1, effs1, Normal a)
    | (m1, effs1, Throw e) =>
        let '(m2, effs2, r) := handler e m1 in (m2, (effs1 ++ effs2)%list, r)
    end.

Definition get : M WebRTCManager := fun m => (m, [], Normal m).

Definition modify (f : WebRTCManager -> WebRTCManager) : M unit :=
  fun m => (f m, [], Normal tt).

Definition emit (e : Effect) : M unit := fun m => (m, [e], Normal tt).

Local Notation "x <- c ;; k" := (mbind c (fun x => k))
  (at level 100, c at next level, right associativity).
Local Notation "c ;;; k" := (mbind c (fun _ => k))
  (at level 100, right associativity).

(** [this.peerConnection.c(...)]: a [TypeError] when the field is [null]. *)
Definition call (c : Call) : M (option JsVal) :=
  fun m =>
    match peerConnection m with
    | None => (m, [], Throw TypeError)
    | Some pc =>
        let '(pc', r) := pc_call pc c in
        (set_peerConnection (Some pc') m, [Called c], r)
    end.

(** [this.signaling.send(data)]: [SignalingChannel.send] logs and hands the
    data to the channel.  (The channel of the example is a simulation: after
    a timeout it delivers [JSON.stringify(data)] to [onmessage], which is a
    later [handleSignalingMessage] of the same manager.) *)
Definition signaling_send (data : JsVal) : M unit :=
  emit (Console log "Sending to signaling server:") ;;;
  emit (SignalingSend data).

(** The object literal [{type: ty, k: v}], as [JSON.stringify] sees it: a
    property whose value is [undefined] is left out. *)
Definition message (ty : string) (k : string) (v : option JsVal) : JsVal :=
  match v with
  | Some x => obj [("type", JStr ty); (k, x)]
  | None => obj [("type", JStr ty)]
  end.

(** ** The methods *)

(** [this.localStream.getTracks().forEach(track => { ... })] of
    [createPeerConnection]. *)
Fixpoint addTracks (tracks : list string) : M unit :=
  match tracks with
  | [] => ret tt
  | kind :: tracks' =>
      call (AddTrack kind) ;;;
      emit (Console log "Added track:") ;;;
      addTracks tracks'
  end.

(** [createPeerConnection()].  Of the event handlers it installs,
    [onicecandidate] is the function [pc_onicecandidate] below; the others
    only write to the console or to the remote video element. *)
Definition createPeerConnection : M unit :=
  emit (Console log "Creating peer connection...") ;;;
  modify (set_peerConnection (Some pc_new)) ;;;
  m <- get ;;
  match localStream m with
  | Some tracks => addTracks tracks
  | None => ret tt
  end ;;;
  emit (Console log "Peer connection created").

(** [peerConnection.onicecandidate]. *)
Definition pc_onicecandidate (candidate : option JsVal) : M unit :=
  if truthy candidate then
    emit (Console log "ICE candidate generated") ;;;
    signaling_send (message "ice-candidate" "candidate" candidate)
  else
    emit (Console log "All ICE candidates generated").

(** [if (!this.peerConnection) { this.createPeerConnection(); }]. *)
Definition ensure_peerConnection : M unit :=
  m <- get ;;
  match peerConnection m with
  | None => createPeerConnection
  | Some _ => ret tt
  end.

(** [initiateCall()]. *)
Definition initiateCall : M (option JsVal) :=
  ensure_peerConnection ;;;
  modify (set_isInitiator true) ;;;
  emit (Console log "Initiating call...") ;;;
  try_catch
    (offer <- call CreateOffer ;;
     call (SetLocalDescription offer) ;;;
     emit (Console log "Offer created") ;;;
     signaling_send (message "offer" "offer" offer) ;;;
     ret offer)
    (fun e => emit (Console error "Error creating offer:") ;;; throw e).

(** [handleOffer(offer)]. *)
Definition handleOffer (offer : option JsVal) : M (option JsVal) :=
  ensure_peerConnection ;;;
  modify (set_isInitiator false) ;;;
  emit (Console log "Handling offer...") ;;;
  try_catch
    (call (SetRemoteDescription offer) ;;;
     answer <- call CreateAnswer ;;
     call (SetLocalDescription answer) ;;;
     emit (Console log "Answer created") ;;;
     signaling_send (message "answer" "answer" answer) ;;;
     ret answer)
    (fun e => emit (Console error "Error handling offer:") ;;; throw e).

(** [handleAnswer(answer)]. *)
Definition handleAnswer (answer : option JsVal) : M unit :=
  m <- get ;;
  match peerConnection m with
  | None => throw (Error "Peer connection not created")
  | Some _ =>
      emit (Console log "Handling answer...") ;;;
      try_catch
        (call (SetRemoteDescription answer) ;;;
         emit (Console log "Answer processed"))
        (fun e => emit (Console error "Error handling answer:") ;;; throw e)
  end.

(** [handleIceCandidate(candidate)]. *)
Definition handleIceCandidate (candidate : option JsVal) : M unit :=
  m <- get ;;
  match peerConnection m with
  | None => throw (Error "Peer connection not created")
  | Some _ =>
      try_catch
        (call (AddIceCandidate candidate) ;;;
         emit (Console log "ICE candidate added"))
        (fun e => emit (Console error "Error adding ICE candidate:") ;;; throw e)
  end.

(** [handleSignalingMessage(event)]: [parsed] is the completion of
    [JSON.parse(event.data)]. *)
Definition handleSignalingMessage (parsed : Completion JsVal) : M unit :=
  match parsed with
  | Throw e => throw e
  | Normal msg =>
      match get_prop msg "type" with
      | Throw e => throw e
      | Normal type =>
          if strict_eq_str type "offer" then
            handleOffer (own_props msg !! "offer") ;;; ret tt
          else if strict_eq_str type "answer" then
            handleAnswer (own_props msg !! "answer")
          else if strict_eq_str type "ice-candidate" then
            handleIceCandidate (own_props msg !! "candidate")
          else
            emit (Console warn "Unknown message type:")
      end
  end.

End WithPeerConnection.

Arguments localVideo {PC} _.
Arguments remoteVideo {PC} _.
Arguments localStream {PC} _.
Arguments peerConnection {PC} _.
Arguments signaling_connected {PC} _.
Arguments isInitiator {PC} _.
Arguments dataChannel {PC} _.

End Manager.

(* ===================================================================== *)
(** * The client: media, data channel and cleanup *)
(* ===================================================================== *)

Module Lifecycle.
Import Js Manager.

(** What the remaining methods of [WebRTCManager] do to the outside, besides
    the effects of the negotiation: [peerConnection.close()],
    [track.stop()] on a track of the local stream, [dataChannel.close()]. *)
Inductive Effect :=
| Negotiation (e : Manager.Effect)
| PcClose
| TrackStop (kind : string)
| ChannelClose (label : string).

(** The effects of the negotiation among the effects, in order. *)
Fixpoint negotiation (effs : list Effect) : list Manager.Effect :=
  match effs with
  | [] => []
  | Negotiation e :: effs' => e :: negotiation effs'
  | _ :: effs' => negotiation effs'
  end.

(** The two arguments of the constructor, [localVideoElement] and
    [remoteVideoElement], which the manager keeps as [this.localVideo] and
    [this.remoteVideo] and never assigns again: whether each is an object,
    so that an assignment to its [srcObject] succeeds.  On [null],
    [undefined] or a primitive the assignment throws a [TypeError] (the body
    of a class is strict code).  The fields [localVideo] and [remoteVideo] of
    the manager are the [srcObject] of the elements that exist. *)
Record Elements := { local_is_element : bool; remote_is_element : bool }.

(** The kinds of the tracks stopped, in order. *)
Fixpoint stopped (effs : list Effect) : list string :=
  match effs with
  | [] => []
  | TrackStop kind :: effs' => kind :: stopped effs'
  | _ :: effs' => stopped effs'
  end.

Section WithPeerConnection.

Variable PC : Type.
Variable pc_new : PC.
Variable pc_call : PC -> Call -> PC * Completion (option JsVal).

(** [peerConnection.createDataChannel(channelName, {...})]: the state the
    call leaves, and whether it returns the channel or throws. *)
Variable pc_createDataChannel : PC -> string -> PC * Completion unit.

(** The [message] of the [TypeError] that the engine throws for an
    assignment to a property of [null] or [undefined]. *)
Variable null_assignment_message : string.

Definition set_localStream (stream : option (list string)) (m : WebRTCManager PC)
  : WebRTCManager PC :=
  {| localVideo := localVideo m; remoteVideo := remoteVideo m;
     localStream := stream; peerConnection := peerConnection m;
     signaling_connected := signaling_connected m;
     isInitiator := isInitiator m; dataChannel := dataChannel m |}.

Definition set_localMedia (stream : option (list string)) (m : WebRTCManager PC)
  : WebRTCManager PC :=
  {| localVideo := stream; remoteVideo := remoteVideo m;
     localStream := stream; peerConnection := peerConnection m;
     signaling_connected := signaling_connected m;
     isInitiator := isInitiator m; dataChannel := dataChannel m |}.

Definition set_dataChannel (channel : option string) (m : WebRTCManager PC)
  : WebRTCManager PC :=
  {| localVideo := localVideo m; remoteVideo := remoteVideo m;
     localStream := localStream m; peerConnection := peerConnection m;
     signaling_connected := signaling_connected m;
     isInitiator := isInitiator m; dataChannel := channel |}.

(** [startLocalMedia()].  [media] is the outcome of
    [navigator.mediaDevices.getUserMedia({...})]: the stream (the kinds of
    its tracks), or [error.message] of the failure.  The stream is assigned
    to [this.localStream] before [this.localVideo.srcObject] is: when the
    second assignment throws, the [catch] finds the stream already kept. *)
Definition startLocalMedia (els : Elements) (media : list string + string)
  : M PC (list string) :=
  fun m =>
    match media with
    | inl stream =>
        if local_is_element els then
          (set_localMedia (Some stream) m,
           [Console log "Requesting user media..."; Console log "Local media started"],
           Normal stream)
        else
          (set_localStream (Some stream) m,
           [Console log "Requesting user media..."; Console error "Error accessing media:"],
           Throw (Error ("Failed to access media: " ++ null_assignment_message)))
    | inr message =>
        (m,
         [Console log "Requesting user media..."; Console error "Error accessing media:"],
         Throw (Error ("Failed to access media: " ++ message)))
    end.

(** [createDataChannel(channelName = 'data')]. *)
Definition createDataChannel (channelName : option string) : M PC string :=
  fun m =>
    let name := match channelName with Some n => n | None => "data" end in
    match peerConnection m with
    | None => (m, [], Throw (Error "Peer connection not created"))
    | Some pc =>
        match pc_createDataChannel pc name with
        | (pc', Normal _) =>
            (set_dataChannel (Some name) (set_peerConnection PC (Some pc') m),
             [Console log "Creating data channel:"], Normal name)
        | (pc', Throw e) =>
            (set_peerConnection PC (Some pc') m,
             [Console log "Creating data channel:"], Throw e)
        end
    end.

(** [handleDataChannelMessage(data)]: [parsed] is the completion of
    [JSON.parse(data)].  The [try] holds the whole body. *)
Definition handleDataChannelMessage (parsed : Completion JsVal) : M PC unit :=
  try_catch PC
    (match parsed with
     | Throw e => throw PC e
     | Normal message =>
         mbind PC (emit PC (Console log "Received JSON:")) (fun _ =>
         match get_prop message "type" with
         | Throw e => throw PC e
         | Normal type =>
             if strict_eq_str type "chat" then emit PC (Console log "Chat message:")
             else if strict_eq_str type "file" then emit PC (Console log "File metadata:")
             else ret PC tt
         end)
     end)
    (fun _ => emit PC (Console log "Received text:")).

(** [this.localStream.getTracks().forEach(track => { track.stop(); ... })]
    of [endCall]. *)
Definition stopTracks (tracks : list string) : list Effect :=
  flat_map (fun kind => [TrackStop kind; Negotiation (Console log "Stopped track:")])
           tracks.

(** The first part of [endCall()], which cannot throw: the peer connection,
    the local stream and the data channel are released and forgotten. *)
Definition release (m : WebRTCManager PC) : WebRTCManager PC * list Effect :=
  ({| localVideo := localVideo m; remoteVideo := remoteVideo m; localStream := None;
      peerConnection := None; signaling_connected := signaling_connected m;
      isInitiator := isInitiator m; dataChannel := None |},
   ([Negotiation (Console log "Ending call...")]
    ++ match peerConnection m with Some _ => [PcClose] | None => [] end
    ++ match localStream m with Some tracks => stopTracks tracks | None => [] end
    ++ match dataChannel m with Some label => [ChannelClose label] | None => [] end)%list).

(** [endCall()].  After the releases come the two assignments
    [this.localVideo.srcObject = null] and [this.remoteVideo.srcObject = null],
    each of which throws when its element is missing, and only then
    [this.signaling.close()] and the last console line. *)
Definition endCall (els : Elements) (m : WebRTCManager PC)
  : WebRTCManager PC * list Effect * Completion unit :=
  let '(m1, effs) := release m in
  if negb (local_is_element els) then (m1, effs, Throw TypeError)
  else
    let m2 :=
      {| localVideo := None; remoteVideo := remoteVideo m1;
         localStream := localStream m1; peerConnection := peerConnection m1;
         signaling_connected := signaling_connected m1;
         isInitiator := isInitiator m1; dataChannel := dataChannel m1 |} in
    if negb (remote_is_element els) then (m2, effs, Throw TypeError)
    else
      ({| localVideo := None; remoteVideo := None;
          localStream := localStream m2; peerConnection := peerConnection m2;
          signaling_connected := false;
          isInitiator := isInitiator m2; dataChannel := dataChannel m2 |},
       (effs ++ [Negotiation (Console log "Disconnected from signaling server");
                 Negotiation (Console log "Call ended")])%list,
       Normal tt).

End WithPeerConnection.

End Lifecycle.

(* ===================================================================== *)
(** * Vocabulary of the properties *)
(* ===================================================================== *)

Module Props.
Import Js Relay.

(** [message.type] is one of the three kinds of frame the relay forwards. *)
Definition is_signal (message : JsVal) : bool :=
  match get_prop message "type" with
  | Normal type =>
      strict_eq_str type "offer" || strict_eq_str type "answer"
      || strict_eq_str type "ice-candidate"
  | Throw _ => false
  end.

(** [message.type] is one of the cases of the [switch] of [handleMessage]. *)
Definition recognized (message : JsVal) : bool :=
  match get_prop message "type" with
  | Normal type =>
      strict_eq_str type "offer" || strict_eq_str type "answer"
      || strict_eq_str type "ice-candidate" || strict_eq_str type "join-room"
      || strict_eq_str type "list-peers"
  | Throw _ => false
  end.

(** [clientId] is registered and its socket is open. *)
Definition open_client (clients : Clients) (clientId : string) : bool :=
  match map_get clientId clients with
  | Some client => is_open client
  | None => false
  end.

(** The value [to] is the id of a registered client whose socket is open. *)
Definition deliverable (clients : Clients) (to : JsVal) : bool :=
  match to with
  | JStr k => open_client clients k
  | _ => false
  end.

(** The frame the server broadcasts when [clientId] disconnects. *)
Definition peer_disconnected (clientId : string) : JsVal :=
  obj [("type", JStr "peer-disconnected"); ("peerId", JStr clientId)].

(** The frames that the client [c] sent, among the events, in the order in
    which the server received them. *)
Fixpoint frames_of (c : string) (evs : list Event) : list JsVal :=
  match evs with
  | [] => []
  | Message c' (Normal msg) :: evs' =>
      if String.eqb c' c then msg :: frames_of c evs' else frames_of c evs'
  | _ :: evs' => frames_of c evs'
  end.

(** The frames that the handlers of the messages of [c] sent to [r], in the
    order in which they were sent. *)
Fixpoint delivered (c r : string) (tr : list (Event * list Effect)) : list JsVal :=
  match tr with
  | [] => []
  | (Message c' _, effs) :: tr' =>
      if String.eqb c' c then (sent_to r effs ++ delivered c r tr')%list
      else delivered c r tr'
  | _ :: tr' => delivered c r tr'
  end.

(** [d] is a frame the relay sends because of the frame [msg] of [c]: [msg]
    itself (broadcast), [msg] with [from] set (forward), or the reply to a
    [list-peers] request. *)
Definition relayed (c : string) (msg d : JsVal) : Prop :=
  d = msg \/ d = with_from msg c \/
  (get_prop msg "type" = Normal (Some (JStr "list-peers")) /\
   exists peers, d = obj [("type", JStr "peers-list"); ("peers", JArr peers)]).

(** The method calls among the effects of the manager, in order. *)
Fixpoint calls (effs : list Manager.Effect) : list Manager.Call :=
  match effs with
  | [] => []
  | Manager.Called c :: effs' => c :: calls effs'
  | _ :: effs' => calls effs'
  end.

(** The frames the manager handed to the signaling channel, in order. *)
Fixpoint signaled (effs : list Manager.Effect) : list JsVal :=
  match effs with
  | [] => []
  | Manager.SignalingSend d :: effs' => d :: signaled effs'
  | _ :: effs' => signaled effs'
  end.

(** The peer connection never throws and none of its promises rejects. *)
Definition resolves {PC : Type}
  (pc_call : PC -> Manager.Call -> PC * Completion (option JsVal)) : Prop :=
  forall pc c, exists pc' v, pc_call pc c = (pc', Normal v).

End Props.

(* ===================================================================== *)
(** * Concrete scenarios *)
(* ===================================================================== *)

Module Scenario.
Import Js Relay Props.

Definition socket (n : nat) : WebSocket := {| conn := n; readyState := OPEN |}.

(** Three clients connect to a fresh server; the random strings give them the
    ids ["a1"], ["b2"] and ["c3"].  No frame has been exchanged. *)
Definition three_connect : list Event :=
  [Connection 1 "0.a" "0.1"; Connection 2 "0.b" "0.2"; Connection 3 "0.c" "0.3"].

Definition three_clients : Clients :=
  [("a1", socket 1); ("b2", socket 2); ("c3", socket 3)].

(** An ICE candidate that ["a1"] addresses to ["b2"]. *)
Definition candidate_to_b2 : JsVal :=
  obj [("type", JStr "ice-candidate"); ("to", JStr "b2");
       ("candidate", obj [("candidate", JStr "candidate:1 1 UDP 1 10.0.0.1 5000 typ host")])].

(** An offer without [to], in which the sender wrote the id of another
    client as [from]. *)
Definition spoofed_offer : JsVal :=
  obj [("type", JStr "offer"); ("from", JStr "b2");
       ("offer", obj [("type", JStr "offer"); ("sdp", JStr "v=0")])].

(** An offer addressed to an id that no client has. *)
Definition offer_to_nobody : JsVal :=
  obj [("type", JStr "offer"); ("to", JStr "zz");
       ("offer", obj [("type", JStr "offer"); ("sdp", JStr "v=0")])].

(** An offer whose [to] is an object that cannot be converted to a string:
    the frame [{"type":"offer","to":{"toString":1}}]. *)
Definition offer_to_object : JsVal :=
  obj [("type", JStr "offer"); ("to", obj [("toString", JNum 1)])].

(** Glare: ["a1"] sends an offer to ["b2"], and before any answer ["b2"]
    sends an offer to ["a1"]. *)
Definition offer_a1_to_b2 : JsVal :=
  obj [("type", JStr "offer"); ("to", JStr "b2");
       ("offer", obj [("type", JStr "offer"); ("sdp", JStr "from a1")])].

Definition offer_b2_to_a1 : JsVal :=
  obj [("type", JStr "offer"); ("to", JStr "a1");
       ("offer", obj [("type", JStr "offer"); ("sdp", JStr "from b2")])].

Definition glare : list Event :=
  [Message "a1" (Normal offer_a1_to_b2); Message "b2" (Normal offer_b2_to_a1)].

(** A frame of a type that [handleMessage] has no case for. *)
Definition bye_frame : JsVal := obj [("type", JStr "bye"); ("to", JStr "b2")].

(** Two connections for which [Math.random] repeats its two values (0.5 is
    ["0.i"] in base 36, 0.25 is ["0.9"]). *)
Definition repeated_random : list Event :=
  [Connection 1 "0.i" "0.9"; Connection 2 "0.i" "0.9"].

(** A peer connection that accepts every call: its state is the list of the
    calls made on it; [createOffer] and [createAnswer] resolve to a
    description, the other calls to [undefined]. *)
Definition local_offer : JsVal := obj [("type", JStr "offer"); ("sdp", JStr "local")].
Definition local_answer : JsVal := obj [("type", JStr "answer"); ("sdp", JStr "local")].
Definition remote_offer : JsVal := obj [("type", JStr "offer"); ("sdp", JStr "remote")].

Definition accepting (pc : list Manager.Call) (c : Manager.Call)
  : list Manager.Call * Completion (option JsVal) :=
  ((pc ++ [c])%list,
   match c with
   | Manager.CreateOffer => Normal (Some local_offer)
   | Manager.CreateAnswer => Normal (Some local_answer)
   | _ => Normal None
   end).

(** A manager that has called [initiateCall()]: its offer is set and sent,
    no answer has arrived. *)
Definition offering : Manager.WebRTCManager (list Manager.Call) :=
  fst (fst (Manager.initiateCall (list Manager.Call) [] accepting
              (Manager.new_manager (list Manager.Call)))).

End Scenario.

(* ===================================================================== *)
(** * Frames the server builds *)
(* ===================================================================== *)

Module Frames.
Import Js Relay.

(** The ids in [clients] other than [clientId], in the order of [clients]:
    the array [peerIds] of the [list-peers] case. *)
Definition others (clients : Clients) (clientId : string) : list string :=
  List.filter (fun id => negb (String.eqb id clientId)) (map_keys clients).

(** [{type: 'peers-list', peers: peerIds}]. *)
Definition peers_list (peerIds : list string) : JsVal :=
  obj [("type", JStr "peers-list"); ("peers", JArr (List.map JStr peerIds))].

(** [{type: 'client-id', id: clientId}]. *)
Definition client_id (clientId : string) : JsVal :=
  obj [("type", JStr "client-id"); ("id", JStr clientId)].

(** A request for the list of peers. *)
Definition list_peers : JsVal := obj [("type", JStr "list-peers")].

(** An answer without [to]. *)
Definition answer_to_all : JsVal :=
  obj [("type", JStr "answer");
       ("answer", obj [("type", JStr "answer"); ("sdp", JStr "v=0")])].

End Frames.

(* ===================================================================== *)
(** * Further scenarios *)
(* ===================================================================== *)

Module Studio.
Import Js Manager Scenario.

(** A data channel factory that accepts every call. *)
Definition channels (pc : list Call) (name : string) : list Call * Completion unit :=
  (pc, Normal tt).

(** A page with both video elements, and a manager built without them. *)
Definition page : Lifecycle.Elements :=
  {| Lifecycle.local_is_element := true; Lifecycle.remote_is_element := true |}.

Definition no_elements : Lifecycle.Elements :=
  {| Lifecycle.local_is_element := false; Lifecycle.remote_is_element := false |}.

(** The message V8 gives the [TypeError] of an assignment to a property of
    [null]. *)
Definition v8_message : string := "Cannot set properties of null (setting 'srcObject')".

(** A manager that has got a camera and a microphone. *)
Definition with_media : WebRTCManager (list Call) :=
  fst (fst (Lifecycle.startLocalMedia (list Call) v8_message page
              (inl ["audio"; "video"]) (new_manager (list Call)))).

(** The calls made in order on a peer connection until one throws: the
    state they leave, the calls made, and the completion. *)
Fixpoint call_sequence {PC : Type}
  (pc_call : PC -> Call -> PC * Completion (option JsVal)) (pc : PC) (cs : list Call)
  : PC * list Call * Completion unit :=
  match cs with
  | [] => (pc, [], Normal tt)
  | c :: cs' =>
      match pc_call pc c with
      | (pc', Normal _) =>
          let '(pc'', made, res) := call_sequence pc_call pc' cs' in
          (pc'', c :: made, res)
      | (pc', Throw e) => (pc', [c], Throw e)
      end
  end.

End Studio.

(* ===================================================================== *)
(** * Properties of the signaling server *)
(* ===================================================================== *)

Section MapFacts.
Import Relay.
Context {V : Type}.
Implicit Types (m : list (string * V)) (k : string).

Lemma map_get_None_keys k m : map_get k m = None <-> ~ In k (map_keys m).
Proof.
  induction m as [|[k' v] m IH]; simpl.
  - tauto.
  - destruct (String.eqb k k') eqn:E.
    + apply String.eqb_eq in E. subst. split; [discriminate | tauto].
    + apply String.eqb_neq in E. rewrite IH. intuition congruence.
Qed.

Lemma map_keys_delete k m :
  map_keys (map_delete k m) = List.filter (fun k' => negb (String.eqb k k')) (map_keys m).
Proof.
  unfold map_delete, map_keys.
  induction m as [|[k' v] m IH]; simpl; [reflexivity|].
  destruct (String.eqb k k'); simpl; congruence.
Qed.

Lemma map_get_delete_eq k m : map_get k (map_delete k m) = None.
Proof.
  apply map_get_None_keys. rewrite map_keys_delete, filter_In.
  intros [_ H]. rewrite String.eqb_refl in H. discriminate.
Qed.

Lemma map_get_delete_ne k k' m : k <> k' -> map_get k' (map_delete k m) = map_get k' m.
Proof.
  intros Hne. unfold map_delete.
  induction m as [|[k0 v] m IH]; simpl; [reflexivity|].
  destruct (String.eqb k k0) eqn:E; simpl.
  - apply String.eqb_eq in E. subst k0.
    destruct (String.eqb k' k) eqn:E'; [|exact IH].
    apply String.eqb_eq in E'. congruence.
  - rewrite IH. reflexivity.
Qed.

Lemma map_delete_absent k m : map_get k m = None -> map_delete k m = m.
Proof.
  unfold map_delete.
  induction m as [|[k' v] m IH]; simpl; [reflexivity|].
  destruct (String.eqb k k'); [discriminate|].
  intros H. simpl. f_equal. auto.
Qed.

Lemma map_delete_idem k m : map_delete k (map_delete k m) = map_delete k m.
Proof. apply map_delete_absent, map_get_delete_eq. Qed.

Lemma wf_delete k m : wf m -> wf (map_delete k m).
Proof.
  unfold wf. rewrite map_keys_delete. rewrite !NoDup_ListNoDup.
  apply List.NoDup_filter.
Qed.

Lemma map_keys_set k v m :
  map_keys (map_set k v m) =
  match map_get k m with
  | Some _ => map_keys m
  | None => (map_keys m ++ [k])%list
  end.
Proof.
  induction m as [|[k' v'] m IH]; simpl; [reflexivity|].
  destruct (String.eqb k k') eqn:E; simpl.
  - apply String.eqb_eq in E. congruence.
  - rewrite IH. destruct (map_get k m); reflexivity.
Qed.

Lemma wf_set k v m : wf m -> wf (map_set k v m).
Proof.
  unfold wf. rewrite map_keys_set.
  destruct (map_get k m) eqn:E; [tauto|].
  intros H. apply NoDup_app. split; [exact H|]. split.
  - intros x Hx Hk. apply list_elem_of_In in Hx, Hk.
    destruct Hk as [<-|[]]. apply map_get_None_keys in E. tauto.
  - apply NoDup_singleton.
Qed.

Lemma map_get_set_eq k v m : map_get k (map_set k v m) = Some v.
Proof.
  induction m as [|[k' v'] m IH]; simpl.
  - rewrite String.eqb_refl. reflexivity.
  - destruct (String.eqb k k') eqn:E; simpl.
    + rewrite String.eqb_refl. reflexivity.
    + rewrite E. exact IH.
Qed.

End MapFacts.

Section RelayFacts.
Import Js Relay Props.
Implicit Types (clients : Clients) (r c : string) (effs : list Effect).

Lemma sent_to_app r effs1 effs2 :
  sent_to r (effs1 ++ effs2)%list = (sent_to r effs1 ++ sent_to r effs2)%list.
Proof.
  induction effs1 as [|[k d|l t] effs1 IH]; simpl; [reflexivity| |exact IH].
  destruct (String.eqb k r); simpl; congruence.
Qed.

Lemma wf_set_readyState clients k rs : wf clients -> wf (set_readyState clients k rs).
Proof.
  unfold wf, set_readyState, map_keys. intros H.
  rewrite List.map_map.
  erewrite List.map_ext; [exact H|].
  intros [k' ws]. simpl. destruct (String.eqb k' k); reflexivity.
Qed.

Lemma wf_step clients ev : wf clients -> wf (fst (step clients ev)).
Proof.
  intros H. destruct ev as [ws r1 r2|k parsed|k|k|k rs]; simpl.
  - apply wf_set, H.
  - unfold ws_on_message. destruct parsed as [message|e]; [|exact H].
    destruct (handleMessage clients k message) as [effs [u|e]]; exact H.
  - apply wf_delete, H.
  - exact H.
  - apply wf_set_readyState, H.
Qed.

(** Every state the server reaches from its start has unique keys. *)
Lemma wf_run clients evs : wf clients -> wf (fst (run clients evs)).
Proof.
  revert clients. induction evs as [|ev evs IH]; intros clients Hwf; [exact Hwf|].
  simpl. pose proof (wf_step clients ev Hwf) as Hstep.
  destruct (step clients ev) as [clients' effs].
  specialize (IH clients' Hstep).
  destruct (run clients' evs) as [final tr]. exact IH.
Qed.

(** Under unique keys, a broadcast sends its message once to every open
    client other than the excluded one, and nothing to anybody else. *)
Lemma sent_to_broadcast clients message ex r :
  wf clients ->
  sent_to r (broadcast clients message ex) =
  if negb (String.eqb r ex) && open_client clients r then [message] else [].
Proof.
  unfold wf, broadcast, open_client.
  induction clients as [|[k ws] clients IH]; simpl; intros Hwf.
  - rewrite andb_false_r. reflexivity.
  - apply NoDup_cons in Hwf as [Hk Hwf]. rewrite sent_to_app, (IH Hwf). clear IH.
    destruct (String.eqb r k) eqn:E.
    + apply String.eqb_eq in E. subst k.
      assert (map_get r clients = None) as ->.
      { apply map_get_None_keys. intros HIn. apply Hk, list_elem_of_In, HIn. }
      rewrite andb_false_r, app_nil_r.
      destruct (negb (String.eqb r ex) && is_open ws); simpl;
        [rewrite String.eqb_refl|]; reflexivity.
    + destruct (negb (String.eqb k ex) && is_open ws); simpl; [|reflexivity].
      rewrite String.eqb_sym, E. reflexivity.
Qed.

Lemma sent_to_sendToClient clients to message r :
  sent_to r (fst (sendToClient clients to message)) = [] \/
  sent_to r (fst (sendToClient clients to message)) = [message].
Proof.
  unfold sendToClient, warn_not_found.
  destruct to as [| | |k| |]; simpl; try (destruct (existsb _ _)); auto.
  - destruct (map_get k clients) as [client|]; simpl; auto.
    destruct (is_open client); simpl; auto.
    destruct (String.eqb k r); auto.
  - destruct (o !! "toString"); auto.
Qed.

Lemma sends_app effs1 effs2 :
  sends (effs1 ++ effs2)%list = (sends effs1 ++ sends effs2)%list.
Proof.
  induction effs1 as [|[k d|l t] effs1 IH]; simpl; congruence.
Qed.

(** The line of the [catch] is no frame: what the handler of a message sends
    is what [handleMessage] sends, whether or not it throws. *)
Lemma sent_to_on_message clients c msg r :
  sent_to r (snd (ws_on_message clients c (Normal msg))) =
  sent_to r (fst (handleMessage clients c msg)).
Proof.
  unfold ws_on_message. destruct (handleMessage clients c msg) as [effs [u|e]];
    cbn [fst snd]; [reflexivity|].
  rewrite sent_to_app. simpl. apply app_nil_r.
Qed.

Lemma sends_on_message clients c msg :
  sends (snd (ws_on_message clients c (Normal msg))) =
  sends (fst (handleMessage clients c msg)).
Proof.
  unfold ws_on_message. destruct (handleMessage clients c msg) as [effs [u|e]];
    cbn [fst snd]; [reflexivity|].
  rewrite sends_app. simpl. apply app_nil_r.
Qed.

Lemma fst_on_message clients c parsed : fst (ws_on_message clients c parsed) = clients.
Proof.
  unfold ws_on_message. destruct parsed as [msg|e]; [|reflexivity].
  destruct (handleMessage clients c msg) as [effs [u|e]]; reflexivity.
Qed.

End RelayFacts.

Section RelayClaims.
Import Js Relay Props Scenario.
Implicit Types (clients : Clients) (r c : string) (effs : list Effect).

(** ** Unregistering *)

(** C9.  Unregistering is idempotent: after the [close] handler of
    [clientId] has run, the id is not in [clients], and running the handler
    again leaves [clients] as it is; when the id is not in [clients] to begin
    with, the handler leaves [clients] unchanged.  [Map.prototype.delete]
    never throws, and the handler has no failing completion. *)
Theorem unregister_idempotent clients clientId :
  let once := fst (ws_on_close clients clientId) in
  map_get clientId once = None /\
  fst (ws_on_close once clientId) = once /\
  (map_get clientId clients = None -> once = clients).
Proof.
  simpl. split; [apply map_get_delete_eq|].
  split; [apply map_delete_idem|apply map_delete_absent].
Qed.

Lemma unregister_idempotent_witness :
  map_get "zz" three_clients = None /\
  fst (ws_on_close three_clients "zz") = three_clients.
Proof.
  split; [reflexivity|].
  apply (proj2 (proj2 (unregister_idempotent three_clients "zz"))).
  reflexivity.
Defined.

(** ** Disconnection *)

(** C5, as the code has it.  When [clientId] disconnects the server removes
    it from [clients] and broadcasts one [peer-disconnected] frame naming it:
    every other registered client whose socket is open receives exactly that
    one frame, and nobody else receives anything.  The server keeps no
    sessions, so the notification does not depend on any.  The hypothesis is
    that [clients] has one entry per key, as every state of the server has
    ([wf_run]). *)
Theorem disconnect_notifies_open_clients clients clientId :
  wf clients ->
  let '(clients', effs) := ws_on_close clients clientId in
  map_get clientId clients' = None /\
  forall r,
    sent_to r effs =
    if negb (String.eqb r clientId) && open_client clients r
    then [peer_disconnected clientId] else [].
Proof.
  intros Hwf. simpl. split; [apply map_get_delete_eq|].
  intros r. fold (peer_disconnected clientId).
  rewrite sent_to_broadcast by (apply wf_delete, Hwf).
  destruct (String.eqb r clientId) eqn:E; [reflexivity|].
  unfold open_client. rewrite map_get_delete_ne; [reflexivity|].
  apply String.eqb_neq in E. congruence.
Qed.

Lemma disconnect_notifies_open_clients_witness :
  wf three_clients /\
  map_get "a1" (fst (ws_on_close three_clients "a1")) = None /\
  sent_to "b2" (snd (ws_on_close three_clients "a1")) = [peer_disconnected "a1"].
Proof.
  assert (wf three_clients) as Hwf.
  { unfold wf. simpl. apply (bool_decide_unpack _). vm_compute. exact I. }
  split; [exact Hwf|].
  pose proof (disconnect_notifies_open_clients three_clients "a1" Hwf) as H.
  destruct (ws_on_close three_clients "a1") as [clients' effs].
  destruct H as [H1 H2]. split; [exact H1|]. apply (H2 "b2").
Defined.

(** C5, as the specification states it, fails: three clients connect to a
    fresh server and exchange nothing, so no pair of them has a session; when
    ["a1"] disconnects, ["b2"] and ["c3"] are both sent a frame, and its type
    is [peer-disconnected], not [bye]. *)
Lemma disconnect_counterexample :
  let '(clients, _) := run start three_connect in
  clients = three_clients /\
  sends (snd (ws_on_close clients "a1")) =
    [("b2", obj [("type", JStr "peer-disconnected"); ("peerId", JStr "a1")]);
     ("c3", obj [("type", JStr "peer-disconnected"); ("peerId", JStr "a1")])].
Proof. vm_compute. split; reflexivity. Qed.

(** ** Order of delivery *)

Lemma run_cons clients ev evs :
  snd (run clients (ev :: evs)) =
  (ev, snd (step clients ev)) :: snd (run (fst (step clients ev)) evs).
Proof.
  simpl. destruct (step clients ev) as [clients' effs]. simpl.
  destruct (run clients' evs) as [final tr]. reflexivity.
Qed.

Lemma strict_eq_str_true (v : option JsVal) (s : string) :
  strict_eq_str v s = true -> v = Some (JStr s).
Proof.
  destruct v as [[| | |t| |]|]; simpl; try discriminate.
  intros H. apply String.eqb_eq in H. congruence.
Qed.

(** The handler of one frame sends at most one frame to any one client, and
    that frame is the relayed form of the frame handled. *)
Lemma message_sends_at_most_one clients c msg r :
  wf clients ->
  let effs := snd (ws_on_message clients c (Normal msg)) in
  sent_to r effs = [] \/ exists d, sent_to r effs = [d] /\ relayed c msg d.
Proof.
  intros Hwf. cbv zeta. rewrite sent_to_on_message. unfold handleMessage.
  destruct (get_prop msg "type") as [type|e] eqn:Htype; [|left; reflexivity].
  assert (forall to m,
            relayed c msg m ->
            let '(effs, res) := sendToClient clients to m in
            sent_to r (fst (Console log "Message from" :: effs, res)) = [] \/
            exists d, sent_to r (fst (Console log "Message from" :: effs, res)) = [d] /\
                      relayed c msg d) as Hs.
  { intros to m Hm. pose proof (sent_to_sendToClient clients to m r) as H.
    destruct (sendToClient clients to m) as [effs res]. cbn [fst sent_to] in *.
    destruct H as [->| ->]; [left; reflexivity|right]. exists m. split; [reflexivity|exact Hm]. }
  assert (sent_to r (Console log "Message from" :: broadcast clients msg c) = [] \/
          exists d, sent_to r (Console log "Message from" :: broadcast clients msg c) = [d] /\
                    relayed c msg d) as Hb.
  { cbn [sent_to]. rewrite sent_to_broadcast by exact Hwf.
    destruct (negb (String.eqb r c) && open_client clients r); [right|left; reflexivity].
    exists msg. split; [reflexivity|left; reflexivity]. }
  destruct (strict_eq_str type "offer" || strict_eq_str type "answer"
            || strict_eq_str type "ice-candidate").
  - destruct (own_props msg !! "to") as [to|]; [|exact Hb].
    destruct (truthy (Some to)); [|exact Hb].
    specialize (Hs to (with_from msg c) (or_intror (or_introl eq_refl))).
    destruct (sendToClient clients to (with_from msg c)) as [effs res]. exact Hs.
  - destruct (strict_eq_str type "join-room").
    { destruct (interpolation_throws _); left; reflexivity. }
    destruct (strict_eq_str type "list-peers") eqn:Hlp; [|left; reflexivity].
    apply strict_eq_str_true in Hlp. subst type.
    match goal with
    | |- context [sendToClient clients ?to ?m] =>
        specialize (Hs to m); destruct (sendToClient clients to m) as [effs res]
    end.
    apply Hs. right; right. split; [exact Htype|]. eexists. reflexivity.
Qed.

Lemma per_sender_order_from clients evs c r :
  wf clients ->
  let tr := snd (run clients evs) in
  List.map fst tr = evs /\
  exists ms, sublist ms (frames_of c evs) /\ Forall2 (relayed c) ms (delivered c r tr).
Proof.
  revert clients. induction evs as [|ev evs IH]; intros clients Hwf.
  - simpl. split; [reflexivity|]. exists []. split; constructor.
  - cbv zeta. rewrite run_cons.
    destruct (IH (fst (step clients ev)) (wf_step clients ev Hwf)) as (Hevs & ms & Hsub & Hrel).
    split; [simpl; f_equal; exact Hevs|].
    destruct ev as [ws r1 r2|k parsed|k|k|k rs]; try (exists ms; split; assumption).
    cbn [delivered frames_of].
    destruct parsed as [msg|e].
    + destruct (String.eqb k c) eqn:E; [|exists ms; split; assumption].
      apply String.eqb_eq in E. subst k.
      destruct (message_sends_at_most_one clients c msg r Hwf) as [H|(d & H & Hd)];
        cbv zeta in H; cbn [step]; rewrite H; simpl.
      * exists ms. split; [apply sublist_cons, Hsub|exact Hrel].
      * exists (msg :: ms). split; [apply sublist_skip, Hsub|].
        constructor; assumption.
    + destruct (String.eqb k c); exists ms; (split; [exact Hsub|exact Hrel]).
Qed.

(** C7.  The server handles the events one after the other, in the order in
    which they arrive (each handler runs to completion, and the run pairs the
    events, in order, with their effects).  For every client [c] and every
    recipient [r], the frames that the handlers of the frames of [c] send to
    [r] are, in the same order, the relayed forms of a subsequence of the
    frames of [c].  Nothing is said about the frames of two clients. *)
Theorem per_sender_order (evs : list Event) (c r : string) :
  let tr := snd (run start evs) in
  List.map fst tr = evs /\
  exists ms, sublist ms (frames_of c evs) /\ Forall2 (relayed c) ms (delivered c r tr).
Proof.
  apply per_sender_order_from. unfold wf, start. simpl. constructor.
Qed.

(** ** Frames the server does not forward *)

(** C4, as the code has it.  A frame that [JSON.parse] rejects, and a parsed
    frame whose [type] is not a case of the [switch] (or that has no [type]
    to read), are dropped: the handler writes to the console and sends
    nothing, to the sender or to anybody else; it leaves [clients] as it is,
    so the sender stays registered; and it completes normally, the [catch]
    having taken any error. *)
Theorem malformed_frame_dropped clients clientId :
  (forall e,
     ws_on_message clients clientId (Throw e) =
     (clients, [Console error "Error parsing message:"])) /\
  (forall message,
     recognized message = false ->
     ws_on_message clients clientId (Normal message) =
     (clients,
      match message with
      | JNull => [Console error "Error parsing message:"]
      | _ => [Console log "Message from"; Console warn "Unknown message type:"]
      end)).
Proof.
  split; [reflexivity|].
  intros message. unfold recognized, ws_on_message, handleMessage. cbn [bind].
  destruct (get_prop message "type") as [type|e] eqn:Htype.
  - intros Hrec. apply orb_false_elim in Hrec as [Hrec Hlp].
    apply orb_false_elim in Hrec as [Hsig Hjr].
    cbn [bind]. rewrite Hsig, Hjr, Hlp.
    destruct message; try reflexivity. discriminate Htype.
  - intros _. destruct message; try discriminate Htype. reflexivity.
Qed.

Lemma malformed_frame_dropped_witness :
  recognized bye_frame = false /\
  ws_on_message three_clients "a1" (Normal bye_frame) =
  (three_clients, [Console log "Message from"; Console warn "Unknown message type:"]).
Proof.
  split; [reflexivity|].
  apply (proj2 (malformed_frame_dropped three_clients "a1") bye_frame).
  reflexivity.
Defined.

(** C4, as the specification states it, fails: for a frame that does not
    parse and for a frame of type [bye], the sender ["a1"] is sent nothing,
    so it receives no [error] envelope. *)
Lemma malformed_frame_counterexample :
  sends (snd (ws_on_message three_clients "a1" (Throw SyntaxError))) = [] /\
  sends (snd (ws_on_message three_clients "a1" (Normal bye_frame))) = [].
Proof. split; reflexivity. Qed.

(** C6, as the code has it.  When the [to] of an [offer], [answer] or
    [ice-candidate] frame is truthy but is not the id of a registered client
    with an open socket, the frame is dropped: nothing is sent to anybody,
    the sender included, nothing is kept for a later attempt, and [clients]
    is unchanged.  All the handler does, after its first console line, is to
    write one more: the warning of [sendToClient], or, when [to] is an object
    or an array that the template literal of that warning cannot convert to
    a string, the error line of the [catch], which takes the [TypeError]. *)
Theorem unknown_target_dropped clients clientId message to :
  is_signal message = true ->
  own_props message !! "to" = Some to ->
  truthy (Some to) = true ->
  deliverable clients to = false ->
  ws_on_message clients clientId (Normal message) =
  (clients,
   [Console log "Message from";
    if to_string_throws to then Console error "Error parsing message:"
    else Console warn "Client not found or not connected"]).
Proof.
  unfold is_signal, ws_on_message, handleMessage.
  destruct (get_prop message "type") as [type|e]; [|discriminate].
  intros Hsig Hprop Htruthy Hto.
  rewrite Hsig, Hprop, Htruthy.
  assert (sendToClient clients to (with_from message clientId) = warn_not_found to) as ->.
  { unfold sendToClient. unfold deliverable, open_client in Hto.
    destruct to as [| | |k| |]; try reflexivity.
    destruct (map_get k clients) as [client|]; [|reflexivity].
    rewrite Hto. reflexivity. }
  unfold warn_not_found. destruct (to_string_throws to); reflexivity.
Qed.

Lemma unknown_target_dropped_witness :
  ws_on_message three_clients "a1" (Normal offer_to_nobody) =
    (three_clients,
     [Console log "Message from"; Console warn "Client not found or not connected"]) /\
  ws_on_message three_clients "a1" (Normal offer_to_object) =
    (three_clients,
     [Console log "Message from"; Console error "Error parsing message:"]).
Proof.
  split.
  - apply (unknown_target_dropped three_clients "a1" offer_to_nobody (JStr "zz"));
      reflexivity.
  - apply (unknown_target_dropped three_clients "a1" offer_to_object
             (obj [("toString", JNum 1)])); reflexivity.
Defined.

(** C6, as the specification states it, fails: ["a1"] addresses an offer to
    the unknown id ["zz"] and is sent nothing in return. *)
Lemma unknown_target_counterexample :
  sends (snd (ws_on_message three_clients "a1" (Normal offer_to_nobody))) = [].
Proof. reflexivity. Qed.

(** ** The sender of a relayed frame *)

(** On the path with [to], the frame delivered carries the id of the
    connection it came from as [from], whatever the client wrote there. *)
Lemma forward_sets_from clients clientId message to r d :
  In d (sent_to r (fst (sendToClient clients to (with_from message clientId)))) ->
  get_prop d "from" = Normal (Some (JStr clientId)).
Proof.
  destruct (sent_to_sendToClient clients to (with_from message clientId) r) as [->| ->].
  - intros [].
  - intros [<-|[]]. unfold with_from, get_prop. cbn [own_props].
    rewrite lookup_insert_eq. reflexivity.
Qed.

(** C3 fails on the path without [to]: ["a1"] sends an offer that has no
    [to] and names ["b2"] as [from]; [broadcast] sends the frame as it came,
    so ["c3"] receives an offer whose [from] is ["b2"], not ["a1"]. *)
Theorem broadcast_keeps_client_from :
  sent_to "c3" (snd (ws_on_message three_clients "a1" (Normal spoofed_offer)))
    = [spoofed_offer] /\
  get_prop spoofed_offer "from" = Normal (Some (JStr "b2")).
Proof. split; reflexivity. Qed.

(** ** Client ids *)

(** C8 fails when [Math.random] repeats itself: two connections for which it
    returns 0.5 and then 0.25 are both given the id ["i9"], and the second
    [clients.set] replaces the socket of the first, which is still
    connected.  Registration itself never fails: the handler always returns
    an id, under which [clients] then holds the new socket. *)
Theorem client_id_collision :
  (forall clients ws r1 r2,
     let '(clients', clientId, _) := wss_on_connection clients ws r1 r2 in
     map_get clientId clients' = Some ws) /\
  generateClientId "0.i" "0.9" = "i9" /\
  run start repeated_random =
  ([("i9", socket 2)],
   [(Connection 1 "0.i" "0.9",
     [Console log "Client connected";
      Send "i9" (obj [("type", JStr "client-id"); ("id", JStr "i9")])]);
    (Connection 2 "0.i" "0.9",
     [Console log "Client connected";
      Send "i9" (obj [("type", JStr "client-id"); ("id", JStr "i9")])])]).
Proof.
  split; [|split; reflexivity].
  intros clients ws r1 r2. simpl. apply map_get_set_eq.
Qed.

(** ** Frames the server forwards *)

(** An [offer], [answer] or [ice-candidate] frame whose [to] is the id of a
    registered client with an open socket is sent to that client, once, at
    the moment it is handled, with [from] set to the id of the sender.  The
    handler consults nothing but [clients] and leaves it as it is. *)
Lemma signal_forwarded clients clientId message k :
  is_signal message = true ->
  own_props message !! "to" = Some (JStr k) ->
  truthy (Some (JStr k)) = true ->
  open_client clients k = true ->
  ws_on_message clients clientId (Normal message) =
  (clients, [Console log "Message from"; Send k (with_from message clientId)]).
Proof.
  unfold is_signal, ws_on_message, handleMessage, open_client. cbn [bind].
  destruct (get_prop message "type") as [type|e]; [|discriminate].
  intros Hsig Hprop Htruthy Hopen. cbn [bind].
  rewrite Hsig, Hprop, Htruthy. unfold sendToClient.
  destruct (map_get k clients) as [client|]; [|discriminate].
  rewrite Hopen. reflexivity.
Qed.

End RelayClaims.

(* ===================================================================== *)
(** * Properties of the client-side manager *)
(* ===================================================================== *)

Section ManagerFacts.
Import Js Manager Props.

Variable PC : Type.
Variable pc_new : PC.
Variable pc_call : PC -> Call -> PC * Completion (option JsVal).

Implicit Types (m : WebRTCManager PC) (pc : PC).

Local Abbreviation handleOffer := (Manager.handleOffer PC pc_new pc_call).
Local Abbreviation handleAnswer := (Manager.handleAnswer PC pc_call).
Local Abbreviation handleIceCandidate := (Manager.handleIceCandidate PC pc_call).
Local Abbreviation handleSignalingMessage := (Manager.handleSignalingMessage PC pc_new pc_call).
Local Abbreviation createPeerConnection := (Manager.createPeerConnection PC pc_new pc_call).

Ltac unfold_m :=
  unfold Manager.handleOffer, Manager.handleAnswer, Manager.handleIceCandidate,
    Manager.initiateCall, Manager.ensure_peerConnection, Manager.signaling_send,
    try_catch, mbind, get, modify, emit, ret, throw, call.

Lemma signaled_app effs1 effs2 :
  signaled (effs1 ++ effs2)%list = (signaled effs1 ++ signaled effs2)%list.
Proof.
  induction effs1 as [|[c|d|l t] effs1 IH]; simpl; congruence.
Qed.

(** Without a peer connection, [handleAnswer] throws before anything else. *)
Lemma handleAnswer_null m answer :
  peerConnection m = None ->
  handleAnswer answer m = (m, [], Throw (Error "Peer connection not created")).
Proof. intros H. unfold_m. rewrite H. reflexivity. Qed.

(** Without a peer connection, [handleIceCandidate] throws before anything
    else. *)
Lemma handleIceCandidate_null m candidate :
  peerConnection m = None ->
  handleIceCandidate candidate m = (m, [], Throw (Error "Peer connection not created")).
Proof. intros H. unfold_m. rewrite H. reflexivity. Qed.

(** With a peer connection, a candidate goes straight to [addIceCandidate]:
    that is the one call made, and the manager changes only in the state of
    its peer connection. *)
Lemma handleIceCandidate_calls m pc candidate :
  peerConnection m = Some pc ->
  let '(m', effs, _) := handleIceCandidate candidate m in
  calls effs = [AddIceCandidate candidate] /\
  m' = set_peerConnection PC (Some (fst (pc_call pc (AddIceCandidate candidate)))) m.
Proof.
  intros H. unfold_m. rewrite H. cbn. rewrite H.
  destruct (pc_call pc (AddIceCandidate candidate)) as [pc' [v|e]]; cbn; auto.
Qed.

(** The loop of [createPeerConnection] over the tracks of the local stream
    keeps a peer connection in place and does not touch [isInitiator]; it
    completes when no call throws. *)
Lemma addTracks_keeps tracks m :
  is_Some (peerConnection m) ->
  let '(m', effs, r) := addTracks PC pc_call tracks m in
  is_Some (peerConnection m') /\ signaled effs = [] /\
  (resolves pc_call -> r = Normal tt).
Proof.
  revert m. induction tracks as [|kind tracks IH]; intros m [pc Hpc].
  - simpl. unfold ret. split; [exists pc; exact Hpc|split; reflexivity].
  - cbn [addTracks]. unfold mbind at 1. unfold call. rewrite Hpc.
    destruct (pc_call pc (AddTrack kind)) as [pc' [v|e]] eqn:Hcall.
    + unfold mbind at 1. unfold emit at 1.
      specialize (IH (set_peerConnection PC (Some pc') m)).
      destruct (addTracks PC pc_call tracks _) as [[m' effs] r].
      cbn. apply IH. exists pc'. reflexivity.
    + split; [exists pc'; reflexivity|split; [reflexivity|]].
      intros Hres. destruct (Hres pc (AddTrack kind)) as (pc'' & v & Hv). congruence.
Qed.

(** [createPeerConnection] always leaves a peer connection in the manager. *)
Lemma createPeerConnection_creates m :
  let '(m', effs, r) := createPeerConnection m in
  is_Some (peerConnection m') /\ signaled effs = [] /\
  (resolves pc_call -> r = Normal tt).
Proof.
  unfold Manager.createPeerConnection.
  unfold mbind at 1. unfold emit at 1.
  unfold mbind at 1. unfold modify at 1.
  unfold mbind at 1. unfold get at 1.
  cbn [localStream set_peerConnection].
  unfold mbind at 1.
  destruct (localStream m) as [tracks|].
  - pose proof (addTracks_keeps tracks (set_peerConnection PC (Some pc_new) m)
                  (ex_intro _ pc_new eq_refl)) as H.
    destruct (addTracks PC pc_call tracks _) as [[m1 effs1] [[]|e]];
      cbn; rewrite ?signaled_app; cbn; rewrite ?app_nil_r; exact H.
  - cbn. split; [exists pc_new; reflexivity|split; reflexivity].
Qed.

(** [handleOffer] with a peer connection in place: [isInitiator] is cleared,
    and the offer goes to [setRemoteDescription], which is the first call
    made; no field of the manager and no property of the offer is looked at
    before.  When no call throws, the answer is created, set and sent. *)
Lemma handleOffer_accepts m pc offer :
  peerConnection m = Some pc ->
  let '(m', effs, r) := handleOffer offer m in
  is_Some (peerConnection m') /\
  isInitiator m' = false /\
  (exists rest, calls effs = SetRemoteDescription offer :: rest) /\
  (resolves pc_call ->
   exists answer,
     r = Normal answer /\
     calls effs = [SetRemoteDescription offer; CreateAnswer; SetLocalDescription answer] /\
     signaled effs = [message "answer" "answer" answer]).
Proof.
  intros H. unfold_m. rewrite H. cbn. rewrite H.
  destruct (pc_call pc (SetRemoteDescription offer)) as [pc1 [v1|e1]] eqn:H1; cbn.
  2:{ split; [eexists; reflexivity|].
      split; [reflexivity|]. split; [eexists; reflexivity|].
      intros Hres. destruct (Hres pc (SetRemoteDescription offer)) as (? & ? & ?).
      congruence. }
  destruct (pc_call pc1 CreateAnswer) as [pc2 [answer|e2]] eqn:H2; cbn.
  2:{ split; [eexists; reflexivity|].
      split; [reflexivity|]. split; [eexists; reflexivity|].
      intros Hres. destruct (Hres pc1 CreateAnswer) as (? & ? & ?). congruence. }
  destruct (pc_call pc2 (SetLocalDescription answer)) as [pc3 [v3|e3]] eqn:H3; cbn.
  2:{ split; [eexists; reflexivity|].
      split; [reflexivity|]. split; [eexists; reflexivity|].
      intros Hres. destruct (Hres pc2 (SetLocalDescription answer)) as (? & ? & ?).
      congruence. }
  split; [eexists; reflexivity|].
  split; [reflexivity|]. split; [eexists; reflexivity|].
  intros _. exists answer. repeat split.
Qed.

(** [handleOffer] without a peer connection: it creates one, and goes on as
    it does with a peer connection in place. *)
Lemma handleOffer_null m offer :
  peerConnection m = None ->
  handleOffer offer m =
  match createPeerConnection m with
  | (m1, effs1, Normal _) =>
      let '(m2, effs2, r) := handleOffer offer m1 in (m2, (effs1 ++ effs2)%list, r)
  | (m1, effs1, Throw e) => (m1, effs1, Throw e)
  end.
Proof.
  intros Hnull.
  pose proof (createPeerConnection_creates m) as Hc.
  unfold Manager.handleOffer at 1. unfold mbind at 1.
  unfold ensure_peerConnection at 1. unfold mbind at 1. unfold get at 1.
  cbn [peerConnection]. rewrite Hnull.
  destruct (createPeerConnection m) as [[m1 effs1] [[]|e]]; [|reflexivity].
  destruct Hc as ([pc1 Hpc1] & _ & _).
  unfold Manager.handleOffer.
  set (K := mbind PC (modify PC (set_isInitiator PC false)) _).
  unfold ensure_peerConnection, get. unfold mbind. cbn [peerConnection].
  rewrite Hpc1. unfold ret. cbn [app].
  destruct (K m1) as [[m2 effs2] r]. reflexivity.
Qed.

(** C10.  While the manager has no peer connection (it has neither sent nor
    received an offer), [handleAnswer] and [handleIceCandidate] throw
    [Error('Peer connection not created')] before doing anything: the
    manager is left as it was, no call, no send and no console line is made,
    and nothing is kept of the answer or of the candidate.  The same holds
    when the answer or the candidate arrives as a signaling message.  An
    offer, in the same state, makes the manager create the peer connection;
    when the peer connection refuses no call, [handleOffer] completes with
    the answer it has sent. *)
Theorem out_of_order_signaling m :
  peerConnection m = None ->
  (forall answer,
     handleAnswer answer m = (m, [], Throw (Error "Peer connection not created"))) /\
  (forall candidate,
     handleIceCandidate candidate m =
     (m, [], Throw (Error "Peer connection not created"))) /\
  (forall msg,
     get_prop msg "type" = Normal (Some (JStr "answer")) \/
     get_prop msg "type" = Normal (Some (JStr "ice-candidate")) ->
     handleSignalingMessage (Normal msg) m =
     (m, [], Throw (Error "Peer connection not created"))) /\
  (forall offer,
     let '(m', effs, r) := handleOffer offer m in
     is_Some (peerConnection m') /\
     (resolves pc_call ->
      exists answer,
        r = Normal answer /\ signaled effs = [message "answer" "answer" answer])) /\
  (forall msg,
     get_prop msg "type" = Normal (Some (JStr "offer")) ->
     let '(m', effs, r) := handleSignalingMessage (Normal msg) m in
     is_Some (peerConnection m') /\
     (resolves pc_call ->
      r = Normal tt /\
      exists answer, signaled effs = [message "answer" "answer" answer])).
Proof.
  intros Hnull.
  assert (forall offer,
            let '(m', effs, r) := handleOffer offer m in
            is_Some (peerConnection m') /\
            (resolves pc_call ->
             exists answer,
               r = Normal answer /\
               signaled effs = [message "answer" "answer" answer])) as Hoffer.
  { intros offer. rewrite (handleOffer_null m offer Hnull).
    pose proof (createPeerConnection_creates m) as Hc.
    destruct (createPeerConnection m) as [[m1 effs1] [[]|e]].
    - destruct Hc as ([pc1 Hpc1] & Hs1 & _).
      pose proof (handleOffer_accepts m1 pc1 offer Hpc1) as Ho.
      destruct (handleOffer offer m1) as [[m2 effs2] r].
      destruct Ho as (Hsome & _ & _ & Ho).
      split; [exact Hsome|].
      intros Hres. destruct (Ho Hres) as (answer & -> & _ & Hs).
      exists answer. split; [reflexivity|].
      rewrite signaled_app, Hs, Hs1. reflexivity.
    - destruct Hc as (Hsome & _ & Hres). split; [exact Hsome|].
      intros H. specialize (Hres H). discriminate. }
  split; [|split; [|split; [|split]]].
  - intros answer. apply handleAnswer_null, Hnull.
  - intros candidate. apply handleIceCandidate_null, Hnull.
  - intros msg [Htype|Htype]; unfold Manager.handleSignalingMessage;
      rewrite Htype; cbn [strict_eq_str String.eqb Ascii.eqb Bool.eqb].
    + apply handleAnswer_null, Hnull.
    + apply handleIceCandidate_null, Hnull.
  - exact Hoffer.
  - intros msg Htype. unfold Manager.handleSignalingMessage.
    rewrite Htype. cbn [strict_eq_str String.eqb Ascii.eqb Bool.eqb].
    unfold mbind. specialize (Hoffer (own_props msg !! "offer")).
    destruct (handleOffer _ m) as [[m1 effs1] [answer|e]]; cbn.
    + destruct Hoffer as (Hsome & Ho). split; [exact Hsome|].
      intros Hres. destruct (Ho Hres) as (answer' & _ & Hs).
      split; [reflexivity|]. exists answer'. rewrite app_nil_r. exact Hs.
    + destruct Hoffer as (Hsome & Ho). split; [exact Hsome|].
      intros Hres. destruct (Ho Hres) as (answer' & Hr & _). discriminate.
Qed.

(** C1, as the code has it.  Nothing is buffered.  The server forwards an
    [ice-candidate] frame whose [to] names a registered client with an open
    socket at the moment it handles the frame: once, with [from] set to the
    sender, whatever offers and answers went before, and [clients], which has
    no queue, is left as it is.  The manager hands a candidate that arrives
    while it has a peer connection straight to [addIceCandidate], whether a
    remote description is set or not, and keeps nothing of it. *)
Theorem candidate_forwarded_at_once :
  (forall clients clientId msg k,
     get_prop msg "type" = Normal (Some (JStr "ice-candidate")) ->
     own_props msg !! "to" = Some (JStr k) ->
     truthy (Some (JStr k)) = true ->
     open_client clients k = true ->
     Relay.ws_on_message clients clientId (Normal msg) =
     (clients,
      [Relay.Console Relay.log "Message from";
       Relay.Send k (Relay.with_from msg clientId)])) /\
  (forall m pc candidate,
     peerConnection m = Some pc ->
     let '(m', effs, _) := handleIceCandidate candidate m in
     calls effs = [AddIceCandidate candidate] /\
     m' = set_peerConnection PC (Some (fst (pc_call pc (AddIceCandidate candidate)))) m).
Proof.
  split.
  - intros clients clientId msg k Htype Hto Htruthy Hopen.
    apply signal_forwarded; try assumption.
    unfold is_signal. rewrite Htype. reflexivity.
  - intros m pc candidate Hpc. apply handleIceCandidate_calls, Hpc.
Qed.

(** C2, as the code has it.  There is no polite or impolite role and no
    check for an offer of one's own.  The server forwards an [offer] frame
    whose [to] names a registered client with an open socket like any other
    frame.  The manager, whenever an offer arrives while it has a peer
    connection (its own offer pending or not), clears [isInitiator] and
    hands the offer to [setRemoteDescription] as the first call it makes;
    when the peer connection refuses no call, it creates an answer, sets it
    and sends it. *)
Theorem offer_accepted_unconditionally :
  (forall clients clientId msg k,
     get_prop msg "type" = Normal (Some (JStr "offer")) ->
     own_props msg !! "to" = Some (JStr k) ->
     truthy (Some (JStr k)) = true ->
     open_client clients k = true ->
     Relay.ws_on_message clients clientId (Normal msg) =
     (clients,
      [Relay.Console Relay.log "Message from";
       Relay.Send k (Relay.with_from msg clientId)])) /\
  (forall m pc offer,
     peerConnection m = Some pc ->
     let '(m', effs, r) := handleOffer offer m in
     isInitiator m' = false /\
     (exists rest, calls effs = SetRemoteDescription offer :: rest) /\
     (resolves pc_call ->
      exists answer,
        r = Normal answer /\
        calls effs =
          [SetRemoteDescription offer; CreateAnswer; SetLocalDescription answer] /\
        signaled effs = [message "answer" "answer" answer])).
Proof.
  split.
  - intros clients clientId msg k Htype Hto Htruthy Hopen.
    apply signal_forwarded; try assumption.
    unfold is_signal. rewrite Htype. reflexivity.
  - intros m pc offer Hpc.
    pose proof (handleOffer_accepts m pc offer Hpc) as H.
    destruct (handleOffer offer m) as [[m' effs] r].
    destruct H as (_ & H). exact H.
Qed.

End ManagerFacts.

Section ManagerScenarios.
Import Js Manager Props Scenario.

Lemma accepting_resolves : resolves accepting.
Proof.
  intros pc c. unfold accepting. destruct c; eexists; eexists; reflexivity.
Defined.

Lemma out_of_order_signaling_witness :
  peerConnection (new_manager (list Call)) = None /\
  handleAnswer (list Call) accepting (Some local_answer) (new_manager (list Call)) =
    (new_manager (list Call), [], Throw (Error "Peer connection not created")) /\
  signaled (snd (fst (handleOffer (list Call) [] accepting (Some remote_offer)
                        (new_manager (list Call))))) =
    [message "answer" "answer" (Some local_answer)].
Proof.
  split; [reflexivity|].
  pose proof (out_of_order_signaling (list Call) [] accepting
                (new_manager (list Call)) eq_refl) as (Ha & _ & _ & Ho & _).
  split; [apply Ha|].
  specialize (Ho (Some remote_offer)).
  destruct (handleOffer _ _ _ _ _) as [[m' effs] r] eqn:E.
  destruct Ho as (_ & Ho). destruct (Ho accepting_resolves) as (answer & Hr & Hs).
  vm_compute in E. injection E as _ <- <-. injection Hr as <-. exact Hs.
Defined.

Lemma candidate_forwarded_at_once_witness :
  Relay.ws_on_message three_clients "a1" (Normal candidate_to_b2) =
    (three_clients,
     [Relay.Console Relay.log "Message from";
      Relay.Send "b2" (Relay.with_from candidate_to_b2 "a1")]) /\
  calls (snd (fst (handleIceCandidate (list Call) accepting (Some candidate_to_b2)
                     offering))) =
    [AddIceCandidate (Some candidate_to_b2)].
Proof.
  destruct (candidate_forwarded_at_once (list Call) accepting) as [Hrelay Hmanager].
  split.
  - apply Hrelay; reflexivity.
  - specialize (Hmanager offering [CreateOffer; SetLocalDescription (Some local_offer)]
                  (Some candidate_to_b2) eq_refl).
    destruct (handleIceCandidate _ _ _ _) as [[m' effs] r].
    apply Hmanager.
Defined.

(** C1, as the specification states it, fails.  On the server: three clients
    have connected and no offer or answer has been exchanged; the candidate
    that ["a1"] addresses to ["b2"] is sent to ["b2"] by the handler of that
    very frame, and the state of the server is then what it was, with no
    candidate kept.  On the client: the manager has sent its offer and has no
    answer yet, so no remote description; the candidate that arrives is
    passed to [addIceCandidate] at once. *)
Lemma candidate_counterexample :
  fst (Relay.run Relay.start three_connect) = three_clients /\
  Relay.ws_on_message three_clients "a1" (Normal candidate_to_b2) =
    (three_clients,
     [Relay.Console Relay.log "Message from";
      Relay.Send "b2" (Relay.with_from candidate_to_b2 "a1")]) /\
  peerConnection offering = Some [CreateOffer; SetLocalDescription (Some local_offer)] /\
  calls (snd (fst (handleIceCandidate (list Call) accepting (Some candidate_to_b2)
                     offering))) =
    [AddIceCandidate (Some candidate_to_b2)].
Proof. repeat split. Qed.

Lemma offer_accepted_unconditionally_witness :
  Relay.ws_on_message three_clients "b2" (Normal offer_b2_to_a1) =
    (three_clients,
     [Relay.Console Relay.log "Message from";
      Relay.Send "a1" (Relay.with_from offer_b2_to_a1 "b2")]) /\
  isInitiator (fst (fst (handleOffer (list Call) [] accepting (Some remote_offer)
                           offering))) = false /\
  signaled (snd (fst (handleOffer (list Call) [] accepting (Some remote_offer)
                        offering))) =
    [message "answer" "answer" (Some local_answer)].
Proof.
  destruct (offer_accepted_unconditionally (list Call) [] accepting) as [Hrelay Hmanager].
  split; [apply Hrelay; reflexivity|].
  specialize (Hmanager offering [CreateOffer; SetLocalDescription (Some local_offer)]
                (Some remote_offer) eq_refl).
  destruct (handleOffer _ _ _ _ _) as [[m' effs] r] eqn:E.
  destruct Hmanager as (Hinit & _ & Hres). split; [exact Hinit|].
  destruct (Hres accepting_resolves) as (answer & Hr & _ & Hs).
  vm_compute in E. injection E as _ <- <-. injection Hr as <-. exact Hs.
Defined.

(** C2, as the specification states it, fails.  On the server: ["a1"] has an
    offer to ["b2"] in flight when the offer of ["b2"] to ["a1"] arrives;
    both are forwarded, whichever role either side would have.  On the
    client: the manager has set and sent its own offer ([isInitiator] is
    true, no answer has arrived); the offer that arrives is applied with
    [setRemoteDescription] and answered, and [isInitiator] is cleared.  The
    manager has no role to consult, so it does this as the polite and as the
    impolite side alike. *)
Lemma glare_counterexample :
  List.map (fun x => Relay.sends (snd x)) (snd (Relay.run three_clients glare)) =
    [[("b2", Relay.with_from offer_a1_to_b2 "a1")];
     [("a1", Relay.with_from offer_b2_to_a1 "b2")]] /\
  isInitiator offering = true /\
  peerConnection offering = Some [CreateOffer; SetLocalDescription (Some local_offer)] /\
  (let '(m', effs, r) :=
     handleOffer (list Call) [] accepting (Some remote_offer) offering in
   isInitiator m' = false /\
   calls effs =
     [SetRemoteDescription (Some remote_offer); CreateAnswer;
      SetLocalDescription (Some local_answer)] /\
   signaled effs = [message "answer" "answer" (Some local_answer)] /\
   r = Normal (Some local_answer)).
Proof. repeat split. Qed.

End ManagerScenarios.

(* ===================================================================== *)
(** * Further properties of the signaling server *)
(* ===================================================================== *)

Section RelayMore.
Import Js Relay Props Scenario Frames.
Implicit Types (clients : Clients) (r c k : string) (effs : list Effect).

Lemma map_get_set_ne {V} k k' (v : V) (m : list (string * V)) :
  k <> k' -> map_get k' (map_set k v m) = map_get k' m.
Proof.
  intros Hne. induction m as [|[k0 v0] m IH]; simpl.
  - destruct (String.eqb k' k) eqn:E; [|reflexivity].
    apply String.eqb_eq in E. congruence.
  - destruct (String.eqb k k0) eqn:E; simpl.
    + apply String.eqb_eq in E. subst k0.
      destruct (String.eqb k' k) eqn:E'; [|reflexivity].
      apply String.eqb_eq in E'. congruence.
    + rewrite IH. reflexivity.
Qed.

Lemma map_delete_set_fresh {V} k (v : V) (m : list (string * V)) :
  map_get k m = None -> map_delete k (map_set k v m) = m.
Proof.
  unfold map_delete. induction m as [|[k0 v0] m IH]; simpl.
  - rewrite String.eqb_refl. reflexivity.
  - destruct (String.eqb k k0) eqn:E; [discriminate|].
    intros H. simpl. rewrite E. simpl. f_equal. apply IH, H.
Qed.

Lemma map_get_Some_keys {V} k (v : V) (m : list (string * V)) :
  map_get k m = Some v -> In k (map_keys m).
Proof.
  intros H. destruct (in_dec String.string_dec k (map_keys m)) as [HIn|Hn]; [exact HIn|].
  apply map_get_None_keys in Hn. congruence.
Qed.

(** Under unique keys, whatever a broadcast sends is the message itself, and
    it goes to a registered client, other than the excluded one, whose socket
    is open. *)
Lemma sends_broadcast_open clients message ex k d :
  wf clients ->
  In (k, d) (sends (broadcast clients message ex)) ->
  d = message /\ k <> ex /\ open_client clients k = true.
Proof.
  unfold wf, broadcast, open_client.
  induction clients as [|[k0 ws] clients IH]; simpl; intros Hwf; [intros []|].
  apply NoDup_cons in Hwf as [Hk Hwf].
  assert (In (k, d) (sends (broadcast clients message ex)) ->
          d = message /\ k <> ex /\
          match (if String.eqb k k0 then Some ws else map_get k clients) with
          | Some client => is_open client
          | None => false
          end = true) as Hrest.
  { intros HIn. destruct (IH Hwf HIn) as (Hd & Hne & Hopen).
    repeat split; try assumption.
    destruct (String.eqb k k0) eqn:E; [|exact Hopen].
    apply String.eqb_eq in E. subst k0.
    destruct (map_get k clients) as [client|] eqn:G; [|discriminate].
    exfalso. apply Hk, list_elem_of_In. exact (map_get_Some_keys k client clients G). }
  destruct (negb (String.eqb k0 ex) && is_open ws) eqn:Ehead; simpl; [|exact Hrest].
  intros [Heq|HIn]; [|exact (Hrest HIn)].
  injection Heq as <- <-. rewrite String.eqb_refl.
  apply andb_true_iff in Ehead as [Hne Hopen].
  repeat split; [|exact Hopen].
  intros ->. rewrite String.eqb_refl in Hne. discriminate.
Qed.

(** ** The list of peers *)

(** X1.  A [list-peers] request is answered to the sender alone: when the
    sender is registered with an open socket it receives one [peers-list]
    frame, otherwise the server only warns; no other client is sent
    anything.  The list holds exactly the registered ids other than the
    sender's (whatever the state of their sockets), in the order in which
    they were registered, each once. *)
Theorem list_peers_reply clients c msg :
  get_prop msg "type" = Normal (Some (JStr "list-peers")) ->
  ws_on_message clients c (Normal msg) =
    (clients,
     Console log "Message from" ::
     (if open_client clients c then [Send c (peers_list (others clients c))]
      else [Console warn "Client not found or not connected"])) /\
  (forall id, In id (others clients c) <-> id <> c /\ In id (map_keys clients)) /\
  (wf clients -> NoDup (others clients c)).
Proof.
  intros Htype. split; [|split].
  - unfold ws_on_message, handleMessage. rewrite Htype.
    cbn [strict_eq_str String.eqb Ascii.eqb Bool.eqb orb].
    unfold sendToClient, warn_not_found, open_client. fold (others clients c).
    fold (peers_list (others clients c)). cbn [to_string_throws].
    destruct (map_get c clients) as [client|]; [|reflexivity].
    destruct (is_open client); reflexivity.
  - intros id. unfold others. rewrite filter_In.
    split.
    + intros [HIn Hf]. split; [|exact HIn].
      intros ->. rewrite String.eqb_refl in Hf. discriminate.
    + intros [Hne HIn]. split; [exact HIn|].
      apply negb_true_iff, String.eqb_neq, Hne.
  - unfold wf, others. rewrite !NoDup_ListNoDup. apply List.NoDup_filter.
Qed.

Lemma list_peers_reply_witness :
  ws_on_message three_clients "b2" (Normal list_peers) =
    (three_clients,
     [Console log "Message from"; Send "b2" (peers_list ["a1"; "c3"])]).
Proof.
  apply (proj1 (list_peers_reply three_clients "b2" list_peers eq_refl)).
Defined.

(** ** The two paths of a signaling frame *)

(** The path of [handleMessage] without a target is [broadcast]. *)
Lemma signal_broadcast clients c msg :
  wf clients ->
  is_signal msg = true ->
  truthy (own_props msg !! "to") = false ->
  let '(clients', effs) := ws_on_message clients c (Normal msg) in
  clients' = clients /\
  forall r,
    sent_to r effs =
    if negb (String.eqb r c) && open_client clients r then [msg] else [].
Proof.
  intros Hwf Hsig Hto. unfold is_signal in Hsig.
  unfold ws_on_message, handleMessage.
  destruct (get_prop msg "type") as [type|e]; [|discriminate].
  rewrite Hsig.
  assert ((match own_props msg !! "to" with
           | Some to =>
               if truthy (Some to) then sendToClient clients to (with_from msg c)
               else (broadcast clients msg c, Normal tt)
           | None => (broadcast clients msg c, Normal tt)
           end) = (broadcast clients msg c, Normal tt)) as ->.
  { destruct (own_props msg !! "to") as [to|]; [rewrite Hto|]; reflexivity. }
  split; [reflexivity|]. intros r. cbn [sent_to].
  apply sent_to_broadcast, Hwf.
Qed.

(** X2.  An [offer], [answer] or [ice-candidate] frame whose [to] is absent
    or falsy ([""], [0], [null], [false]) is broadcast: every registered
    client other than the sender whose socket is open receives the frame
    once, exactly as the sender wrote it; the sender and the clients whose
    socket is not open receive nothing; [clients] is unchanged. *)
Theorem broadcast_when_no_target clients c msg :
  wf clients ->
  is_signal msg = true ->
  truthy (own_props msg !! "to") = false ->
  let '(clients', effs) := ws_on_message clients c (Normal msg) in
  clients' = clients /\
  forall r,
    sent_to r effs =
    if negb (String.eqb r c) && open_client clients r then [msg] else [].
Proof. exact (signal_broadcast clients c msg). Qed.

Lemma broadcast_when_no_target_witness :
  sent_to "c3" (snd (ws_on_message three_clients "a1" (Normal answer_to_all)))
    = [answer_to_all] /\
  sent_to "a1" (snd (ws_on_message three_clients "a1" (Normal answer_to_all))) = [].
Proof.
  assert (wf three_clients) as Hwf.
  { unfold wf. simpl. apply (bool_decide_unpack _). vm_compute. exact I. }
  pose proof (broadcast_when_no_target three_clients "a1" answer_to_all
                Hwf eq_refl eq_refl) as H.
  destruct (ws_on_message three_clients "a1" (Normal answer_to_all)) as [clients' effs].
  destruct H as [_ H]. split; [apply (H "c3")|apply (H "a1")].
Defined.

(** X3.  An [offer], [answer] or [ice-candidate] frame whose [to] is truthy
    reaches nobody but its target: the handler sends at most one frame, and
    when it sends one, [to] is the id of a registered client with an open
    socket and the frame goes to that client (the sender itself, when it
    names its own id).  The frame sent has the properties of the frame
    received, with the same values, except [from], which is the id of the
    sender. *)
Theorem forward_only_to_target clients c msg to :
  is_signal msg = true ->
  own_props msg !! "to" = Some to ->
  truthy (Some to) = true ->
  let effs := snd (ws_on_message clients c (Normal msg)) in
  (sends effs = [] \/
   exists k, to = JStr k /\ open_client clients k = true /\
             sends effs = [(k, with_from msg c)]) /\
  forall p,
    own_props (with_from msg c) !! p =
    if String.eqb p "from" then Some (JStr c) else own_props msg !! p.
Proof.
  intros Hsig Hprop Htruthy. unfold is_signal in Hsig.
  cbv zeta. rewrite sends_on_message. unfold handleMessage.
  destruct (get_prop msg "type") as [type|e]; [|discriminate].
  rewrite Hsig, Hprop, Htruthy. split.
  - assert (forall v, sends (fst (let '(effs, r) := warn_not_found v in
                                  (Console log "Message from" :: effs, r))) = []) as Hw.
    { intros v. unfold warn_not_found. destruct (to_string_throws v); reflexivity. }
    unfold sendToClient, open_client.
    destruct to as [| | |k| |]; try (left; apply Hw).
    destruct (map_get k clients) as [client|] eqn:Hget; [|left; apply Hw].
    destruct (is_open client) eqn:Hopen; [|left; apply Hw].
    right. exists k. rewrite Hget. repeat split. exact Hopen.
  - intros p. unfold with_from. cbn [own_props].
    destruct (String.eqb p "from") eqn:E.
    + apply String.eqb_eq in E. subst p. apply lookup_insert_eq.
    + apply String.eqb_neq in E. apply lookup_insert_ne. congruence.
Qed.

Lemma forward_only_to_target_witness :
  sends (snd (ws_on_message three_clients "a1" (Normal candidate_to_b2))) =
    [("b2", with_from candidate_to_b2 "a1")] /\
  own_props (with_from candidate_to_b2 "a1") !! "candidate" =
    own_props candidate_to_b2 !! "candidate".
Proof.
  destruct (forward_only_to_target three_clients "a1" candidate_to_b2 (JStr "b2")
              eq_refl eq_refl eq_refl) as [_ H].
  split; [reflexivity|apply (H "candidate")].
Defined.

(** ** Connecting and disconnecting *)

(** X4.  A connection registers the new socket under the generated id and
    sends it one frame, [client-id] with that id; no other client is sent
    anything, and every other id keeps the socket it had.  The keys of
    [clients] stay unique. *)
Theorem connection_registers clients ws r1 r2 :
  let '(clients', clientId, effs) := wss_on_connection clients ws r1 r2 in
  sends effs = [(clientId, client_id clientId)] /\
  map_get clientId clients' = Some ws /\
  (forall k, k <> clientId -> map_get k clients' = map_get k clients) /\
  (wf clients -> wf clients').
Proof.
  cbn. split; [reflexivity|]. split; [apply map_get_set_eq|]. split.
  - intros k Hne. apply map_get_set_ne. congruence.
  - apply wf_set.
Qed.

(** X5.  When the generated id is not yet in [clients], a connection
    followed by the disconnection of the same client leaves [clients]
    exactly as it was before the connection, order included. *)
Theorem connect_then_close_restores clients ws r1 r2 :
  map_get (generateClientId r1 r2) clients = None ->
  let '(clients', clientId, _) := wss_on_connection clients ws r1 r2 in
  fst (ws_on_close clients' clientId) = clients.
Proof.
  intros Hfresh. cbn. apply map_delete_set_fresh, Hfresh.
Qed.

Lemma connect_then_close_restores_witness :
  fst (ws_on_close (fst (fst (wss_on_connection three_clients (socket 4) "0.d" "0.4")))
         "d4") = three_clients.
Proof.
  apply (connect_then_close_restores three_clients (socket 4) "0.d" "0.4").
  reflexivity.
Defined.

(** X7.  A disconnection removes the disconnecting client only: every other
    id keeps its socket, the remaining ids keep their order, and the keys
    stay unique. *)
Theorem close_keeps_others clients c :
  let clients' := fst (ws_on_close clients c) in
  (forall k, k <> c -> map_get k clients' = map_get k clients) /\
  map_keys clients' = others clients c /\
  (wf clients -> wf clients').
Proof.
  cbv zeta. unfold ws_on_close. cbn [fst]. split; [|split].
  - intros k Hne. apply map_get_delete_ne. congruence.
  - rewrite map_keys_delete. unfold others. apply List.filter_ext.
    intros k. rewrite String.eqb_sym. reflexivity.
  - apply wf_delete.
Qed.

(** X8.  The server never sends on a socket that is not open: whatever the
    event, every frame its handler sends goes to an id that is registered,
    with an open socket, in the state the handler leaves. *)
Theorem never_sends_to_closed clients ev :
  wf clients ->
  let '(clients', effs) := step clients ev in
  forall k d, In (k, d) (sends effs) -> open_client clients' k = true.
Proof.
  intros Hwf. destruct ev as [n r1 r2|c parsed|c|c|c rs].
  - cbn. intros k d [Heq|[]]. injection Heq as <- _.
    unfold open_client. rewrite map_get_set_eq. reflexivity.
  - cbn [step]. destruct parsed as [msg|e]; [|cbn; intros k d []].
    pose proof (fst_on_message clients c (Normal msg)) as Hfst.
    pose proof (sends_on_message clients c msg) as Hsends.
    destruct (ws_on_message clients c (Normal msg)) as [clients' effs].
    cbn [fst snd] in Hfst, Hsends. subst clients'. rewrite Hsends. clear Hsends.
    unfold handleMessage.
    destruct (get_prop msg "type") as [type|e]; [|intros k d []].
    assert (forall to m k d,
              In (k, d) (sends (fst (let '(effs, r) := sendToClient clients to m in
                                     (Console log "Message from" :: effs, r)))) ->
              open_client clients k = true) as Hsend.
    { intros to m k d. unfold sendToClient, warn_not_found, open_client.
      destruct to as [| | |k0| |];
        try (destruct (to_string_throws _); intros []).
      destruct (map_get k0 clients) as [client|] eqn:Hget;
        [|destruct (to_string_throws _); intros []].
      destruct (is_open client) eqn:Hopen;
        [|destruct (to_string_throws _); intros []].
      intros [Heq|[]]. injection Heq as <- _. rewrite Hget. exact Hopen. }
    assert (forall m k d,
              In (k, d) (sends (Console log "Message from" :: broadcast clients m c)) ->
              open_client clients k = true) as Hbroad.
    { intros m k d HIn. apply (sends_broadcast_open clients m c k d Hwf HIn). }
    destruct (strict_eq_str type "offer" || strict_eq_str type "answer"
              || strict_eq_str type "ice-candidate").
    + destruct (own_props msg !! "to") as [to|]; [|apply Hbroad].
      destruct (truthy (Some to)); [apply Hsend|apply Hbroad].
    + destruct (strict_eq_str type "join-room").
      { destruct (interpolation_throws _); intros k d []. }
      destruct (strict_eq_str type "list-peers"); [apply Hsend|intros k d []].
  - cbn. intros k d HIn.
    apply (sends_broadcast_open (map_delete c clients) _ c k d (wf_delete c clients Hwf) HIn).
  - cbn. intros k d [].
  - cbn. intros k d [].
Qed.

Lemma never_sends_to_closed_witness :
  wf three_clients /\
  open_client (fst (step three_clients (Close "a1"))) "b2" = true.
Proof.
  assert (wf three_clients) as Hwf.
  { unfold wf. simpl. apply (bool_decide_unpack _). vm_compute. exact I. }
  split; [exact Hwf|].
  pose proof (never_sends_to_closed three_clients (Close "a1") Hwf) as H.
  destruct (step three_clients (Close "a1")) as [clients' effs] eqn:E.
  apply (H "b2" (peer_disconnected "a1")).
  vm_compute in E. injection E as _ <-. left. reflexivity.
Defined.

(** ** The shape of a client id *)

Lemma substring_length_le n m s : String.length (String.substring n m s) <= m.
Proof.
  revert n m. induction s as [|a s IH]; intros [|n] [|m]; simpl; try lia.
  - specialize (IH 0 m). lia.
  - apply (IH n 0).
  - apply (IH n (S m)).
Qed.

Lemma substring_whole m s : String.length s <= m -> String.substring 0 m s = s.
Proof.
  revert m. induction s as [|a s IH]; intros [|m]; simpl; intros H;
    try reflexivity; try lia.
  f_equal. apply IH. lia.
Qed.

Lemma append_length s1 s2 :
  String.length (s1 ++ s2) = String.length s1 + String.length s2.
Proof. induction s1 as [|a s1 IH]; simpl; [reflexivity|]. rewrite IH. reflexivity. Qed.

Lemma append_empty s : s ++ "" = s.
Proof.
  induction s as [|a s IH]; [reflexivity|].
  change (String a (s ++ "") = String a s). rewrite IH. reflexivity.
Qed.

(** X6.  A client id has at most 26 characters: at most 13 from each of the
    two random strings, taken after their first two characters.  When the
    two strings are ["0."] followed by at most 13 digits each, the id is the
    two runs of digits put together; a string of fewer than three
    characters, first or second, contributes nothing. *)
Theorem client_id_shape r1 r2 :
  String.length (generateClientId r1 r2) <= 26 /\
  (forall a b,
     String.length a <= 13 -> String.length b <= 13 ->
     generateClientId ("0." ++ a) ("0." ++ b) = a ++ b) /\
  (String.length r1 <= 2 -> generateClientId r1 r2 = Js.substring r2 2 15) /\
  (String.length r2 <= 2 -> generateClientId r1 r2 = Js.substring r1 2 15).
Proof.
  unfold generateClientId, Js.substring. split; [|split; [|split]].
  - rewrite append_length.
    pose proof (substring_length_le 2 (15 - 2) r1).
    pose proof (substring_length_le 2 (15 - 2) r2). lia.
  - intros a b Ha Hb.
    change (String.substring 2 (15 - 2) ("0." ++ a)) with (String.substring 0 13 a).
    change (String.substring 2 (15 - 2) ("0." ++ b)) with (String.substring 0 13 b).
    rewrite !substring_whole by assumption. reflexivity.
  - intros H. destruct r1 as [|c1 [|c2 [|c3 r1]]]; simpl in H; try lia; reflexivity.
  - intros H.
    assert (String.substring 2 (15 - 2) r2 = "") as ->
      by (destruct r2 as [|c1 [|c2 [|c3 r2]]]; simpl in H; try lia; reflexivity).
    apply append_empty.
Qed.

Lemma client_id_shape_witness :
  generateClientId "0.4fzyo82mvyr" "0.k3b1x9" = "4fzyo82mvyrk3b1x9" /\
  generateClientId "0" "0.k3b1x9" = "k3b1x9".
Proof.
  destruct (client_id_shape "0" "0.k3b1x9") as (_ & Hstrip & Hshort & _).
  split.
  - apply (Hstrip "4fzyo82mvyr" "k3b1x9"); simpl; lia.
  - apply Hshort. simpl. lia.
Defined.

End RelayMore.

(* ===================================================================== *)
(** * Further properties of the client-side manager *)
(* ===================================================================== *)

Section ManagerMore.
Import Js Manager Props Studio.

Variable PC : Type.
Variable pc_new : PC.
Variable pc_call : PC -> Call -> PC * Completion (option JsVal).

Implicit Types (m : WebRTCManager PC) (pc : PC).

Local Abbreviation handleOffer := (Manager.handleOffer PC pc_new pc_call).
Local Abbreviation handleAnswer := (Manager.handleAnswer PC pc_call).
Local Abbreviation handleIceCandidate := (Manager.handleIceCandidate PC pc_call).
Local Abbreviation handleSignalingMessage :=
  (Manager.handleSignalingMessage PC pc_new pc_call).
Local Abbreviation createPeerConnection :=
  (Manager.createPeerConnection PC pc_new pc_call).
Local Abbreviation initiateCall := (Manager.initiateCall PC pc_new pc_call).

Ltac unfold_m :=
  unfold Manager.handleOffer, Manager.handleAnswer, Manager.handleIceCandidate,
    Manager.initiateCall, Manager.ensure_peerConnection, Manager.signaling_send,
    try_catch, mbind, get, modify, emit, ret, throw, call.

(** ** Creating the peer connection *)

Lemma calls_app effs1 effs2 :
  calls (effs1 ++ effs2)%list = (calls effs1 ++ calls effs2)%list.
Proof.
  induction effs1 as [|[c|d|l t] effs1 IH]; simpl; congruence.
Qed.

Lemma call_sequence_shape pc cs :
  let '(pc', made, res) := call_sequence pc_call pc cs in
  made `prefix_of` cs /\
  (res = Normal tt -> made = cs) /\
  (forall e, res = Throw e ->
     exists before c after pc0,
       cs = (before ++ c :: after)%list /\ made = (before ++ [c])%list /\
       snd (pc_call pc0 c) = Throw e) /\
  (resolves pc_call -> res = Normal tt).
Proof.
  revert pc. induction cs as [|c cs IH]; intros pc; cbn [call_sequence].
  - split; [reflexivity|]. split; [reflexivity|]. split; [discriminate|reflexivity].
  - destruct (pc_call pc c) as [pc1 [v|e]] eqn:Hcall.
    + specialize (IH pc1). destruct (call_sequence pc_call pc1 cs) as [[pc2 made] res].
      destruct IH as (Hpre & Hall & Hthrow & Hres).
      split; [apply prefix_cons, Hpre|].
      split; [intros H; f_equal; apply Hall, H|].
      split; [|exact Hres].
      intros e He. destruct (Hthrow e He) as (before & c0 & after & pc0 & -> & -> & Hc0).
      exists (c :: before), c0, after, pc0. repeat split. exact Hc0.
    + split; [apply prefix_cons, prefix_nil|]. split; [discriminate|].
      split.
      * intros e0 He0. injection He0 as <-.
        exists [], c, cs, pc. repeat split. rewrite Hcall. reflexivity.
      * intros Hres. destruct (Hres pc c) as (pc' & v & Hv). congruence.
Qed.

Lemma set_peerConnection_same m pc :
  peerConnection m = Some pc -> set_peerConnection PC (Some pc) m = m.
Proof. destruct m. cbn. intros ->. reflexivity. Qed.

Lemma addTracks_sequence tracks m pc :
  peerConnection m = Some pc ->
  let '(pc', made, res) := call_sequence pc_call pc (List.map AddTrack tracks) in
  let '(m', effs, r) := addTracks PC pc_call tracks m in
  m' = set_peerConnection PC (Some pc') m /\ calls effs = made /\ r = res /\
  signaled effs = [].
Proof.
  revert m pc. induction tracks as [|kind tracks IH]; intros m pc Hpc.
  - cbn. rewrite (set_peerConnection_same m pc Hpc). repeat split.
  - cbn [addTracks List.map call_sequence]. unfold mbind at 1. unfold call. rewrite Hpc.
    destruct (pc_call pc (AddTrack kind)) as [pc1 [v|e]].
    + unfold mbind at 1. unfold emit at 1.
      specialize (IH (set_peerConnection PC (Some pc1) m) pc1 eq_refl).
      destruct (call_sequence pc_call pc1 (List.map AddTrack tracks)) as [[pc2 made] res].
      destruct (addTracks PC pc_call tracks _) as [[m' effs] r].
      destruct IH as (-> & <- & -> & Hsig). cbn. repeat split. exact Hsig.
    + cbn. repeat split.
Qed.

(** What [createPeerConnection] calls and what it leaves. *)
Lemma createPeerConnection_spec m :
  let tracks := match localStream m with Some tracks => tracks | None => [] end in
  let '(pc', made, res) := call_sequence pc_call pc_new (List.map AddTrack tracks) in
  let '(m', effs, r) := createPeerConnection m in
  m' = set_peerConnection PC (Some pc') m /\ calls effs = made /\ r = res /\
  signaled effs = [] /\
  made `prefix_of` List.map AddTrack tracks /\
  (r = Normal tt -> made = List.map AddTrack tracks) /\
  (forall e, r = Throw e ->
     exists before c after pc0,
       List.map AddTrack tracks = (before ++ c :: after)%list /\
       made = (before ++ [c])%list /\
       snd (pc_call pc0 c) = Throw e) /\
  (resolves pc_call -> r = Normal tt).
Proof.
  cbv zeta.
  pose proof (call_sequence_shape pc_new
                (List.map AddTrack
                   match localStream m with Some tracks => tracks | None => [] end))
    as Hshape.
  unfold Manager.createPeerConnection.
  unfold mbind at 1. unfold emit at 1.
  unfold mbind at 1. unfold modify at 1.
  unfold mbind at 1. unfold get at 1.
  cbn [localStream set_peerConnection].
  unfold mbind at 1.
  destruct (localStream m) as [tracks|].
  - pose proof (addTracks_sequence tracks (set_peerConnection PC (Some pc_new) m)
                  pc_new eq_refl) as H.
    destruct (call_sequence pc_call pc_new (List.map AddTrack tracks))
      as [[pc' made] res].
    destruct (addTracks PC pc_call tracks _) as [[m1 effs1] r1].
    destruct H as (-> & <- & -> & Hsig).
    destruct res as [[]|e]; cbn; rewrite ?calls_app, ?signaled_app, ?Hsig; cbn;
      rewrite ?app_nil_r; (split; [reflexivity|]); (split; [reflexivity|]);
      (split; [reflexivity|]); (split; [reflexivity|]); exact Hshape.
  - cbn in *. repeat split; try apply Hshape.
Qed.

(** X14.  [createPeerConnection] puts a new peer connection in the manager
    whatever it held before, and calls [addTrack] on it for the tracks of
    the local stream, in order, until one of the calls throws; without a
    local stream it makes no call.  The peer connection it leaves is the new
    one after exactly those calls; the method completes as they do, so the
    error of a call that throws leaves the method and the tracks after it
    are not added, while the peer connection stays in the manager.  The
    method sends nothing and changes no other field. *)
Theorem createPeerConnection_adds_tracks m :
  let tracks := match localStream m with Some tracks => tracks | None => [] end in
  let '(pc', made, res) := call_sequence pc_call pc_new (List.map AddTrack tracks) in
  let '(m', effs, r) := createPeerConnection m in
  m' = set_peerConnection PC (Some pc') m /\ calls effs = made /\ r = res /\
  signaled effs = [] /\
  made `prefix_of` List.map AddTrack tracks /\
  (r = Normal tt -> made = List.map AddTrack tracks) /\
  (forall e, r = Throw e ->
     exists before c after pc0,
       List.map AddTrack tracks = (before ++ c :: after)%list /\
       made = (before ++ [c])%list /\
       snd (pc_call pc0 c) = Throw e) /\
  (resolves pc_call -> r = Normal tt).
Proof. exact (createPeerConnection_spec m). Qed.

(** ** What is sent, and when *)

Lemma handleOffer_outcome m pc offer :
  peerConnection m = Some pc ->
  let '(m', effs, r) := handleOffer offer m in
  is_Some (peerConnection m') /\
  match r with
  | Normal answer =>
      isInitiator m' = false /\
      signaled effs = [message "answer" "answer" answer] /\
      calls effs = [SetRemoteDescription offer; CreateAnswer; SetLocalDescription answer]
  | Throw _ => signaled effs = []
  end.
Proof.
  intros H. unfold_m. rewrite H. cbn. rewrite H.
  destruct (pc_call pc (SetRemoteDescription offer)) as [pc1 [v1|e1]]; cbn;
    [|split; [eexists; reflexivity|reflexivity]].
  destruct (pc_call pc1 CreateAnswer) as [pc2 [answer|e2]]; cbn;
    [|split; [eexists; reflexivity|reflexivity]].
  destruct (pc_call pc2 (SetLocalDescription answer)) as [pc3 [v3|e3]]; cbn;
    [|split; [eexists; reflexivity|reflexivity]].
  split; [eexists; reflexivity|]. repeat split.
Qed.

(** X9.  [handleOffer] sends an answer exactly when it completes: when it
    returns, it returns the answer, it has applied the offer, created the
    answer and set it, in that order and after adding the local tracks if it
    had to create the peer connection, it has sent the one frame
    [{type: 'answer', answer}], and [isInitiator] is false; when it throws,
    it has sent nothing.  Either way the manager has a peer connection
    afterwards. *)
Theorem offer_answered_iff_completes m offer :
  let '(m', effs, r) := handleOffer offer m in
  is_Some (peerConnection m') /\
  match r with
  | Normal answer =>
      isInitiator m' = false /\
      signaled effs = [message "answer" "answer" answer] /\
      exists added,
        calls effs =
        (added ++ [SetRemoteDescription offer; CreateAnswer;
                   SetLocalDescription answer])%list
  | Throw _ => signaled effs = []
  end.
Proof.
  destruct (peerConnection m) as [pc|] eqn:Hpc.
  - pose proof (handleOffer_outcome m pc offer Hpc) as H.
    destruct (handleOffer offer m) as [[m' effs] [answer|e]]; [|exact H].
    destruct H as (Hsome & Hinit & Hsig & Hcalls).
    split; [exact Hsome|]. split; [exact Hinit|]. split; [exact Hsig|].
    exists []. exact Hcalls.
  - rewrite (handleOffer_null PC pc_new pc_call m offer Hpc).
    pose proof (createPeerConnection_creates PC pc_new pc_call m) as Hc.
    destruct (createPeerConnection m) as [[m1 effs1] [[]|e]].
    + destruct Hc as ([pc1 Hpc1] & Hs1 & _).
      pose proof (handleOffer_outcome m1 pc1 offer Hpc1) as H.
      destruct (handleOffer offer m1) as [[m2 effs2] [answer|e]].
      * destruct H as (Hsome & Hinit & Hsig & Hcalls).
        split; [exact Hsome|]. split; [exact Hinit|].
        rewrite signaled_app, calls_app, Hs1, Hsig, Hcalls.
        split; [reflexivity|]. exists (calls effs1). reflexivity.
      * destruct H as (Hsome & Hsig). split; [exact Hsome|].
        rewrite signaled_app, Hs1, Hsig. reflexivity.
    + destruct Hc as (Hsome & Hs1 & _). split; assumption.
Qed.

Lemma initiateCall_outcome m pc :
  peerConnection m = Some pc ->
  let '(m', effs, r) := initiateCall m in
  is_Some (peerConnection m') /\ isInitiator m' = true /\
  match r with
  | Normal offer =>
      signaled effs = [message "offer" "offer" offer] /\
      calls effs = [CreateOffer; SetLocalDescription offer]
  | Throw _ => signaled effs = []
  end.
Proof.
  intros H. unfold_m. rewrite H. cbn. rewrite H.
  destruct (pc_call pc CreateOffer) as [pc1 [offer|e1]]; cbn;
    [|split; [eexists; reflexivity|split; reflexivity]].
  destruct (pc_call pc1 (SetLocalDescription offer)) as [pc2 [v2|e2]]; cbn;
    [|split; [eexists; reflexivity|split; reflexivity]].
  split; [eexists; reflexivity|]. repeat split.
Qed.

Lemma initiateCall_null m :
  peerConnection m = None ->
  initiateCall m =
  match createPeerConnection m with
  | (m1, effs1, Normal _) =>
      let '(m2, effs2, r) := initiateCall m1 in (m2, (effs1 ++ effs2)%list, r)
  | (m1, effs1, Throw e) => (m1, effs1, Throw e)
  end.
Proof.
  intros Hnull.
  pose proof (createPeerConnection_creates PC pc_new pc_call m) as Hc.
  unfold Manager.initiateCall at 1. unfold mbind at 1.
  unfold ensure_peerConnection at 1. unfold mbind at 1. unfold get at 1.
  cbn [peerConnection]. rewrite Hnull.
  destruct (createPeerConnection m) as [[m1 effs1] [[]|e]]; [|reflexivity].
  destruct Hc as ([pc1 Hpc1] & _ & _).
  unfold Manager.initiateCall.
  set (K := mbind PC (modify PC (set_isInitiator PC true)) _).
  unfold ensure_peerConnection, get. unfold mbind. cbn [peerConnection].
  rewrite Hpc1. unfold ret. cbn [app].
  destruct (K m1) as [[m2 effs2] r]. reflexivity.
Qed.

(** X10.  [initiateCall] sends an offer exactly when it completes: when it
    returns, it returns the offer it created, it has set it as local
    description, it has sent the one frame [{type: 'offer', offer}], and
    [isInitiator] is true; when it throws, it has sent nothing.  Either way
    the manager has a peer connection afterwards. *)
Theorem call_offered_iff_completes m :
  let '(m', effs, r) := initiateCall m in
  is_Some (peerConnection m') /\
  match r with
  | Normal offer =>
      isInitiator m' = true /\
      signaled effs = [message "offer" "offer" offer] /\
      exists added,
        calls effs = (added ++ [CreateOffer; SetLocalDescription offer])%list
  | Throw _ => signaled effs = []
  end.
Proof.
  destruct (peerConnection m) as [pc|] eqn:Hpc.
  - pose proof (initiateCall_outcome m pc Hpc) as H.
    destruct (initiateCall m) as [[m' effs] [offer|e]].
    + destruct H as (Hsome & Hinit & Hsig & Hcalls).
      split; [exact Hsome|]. split; [exact Hinit|]. split; [exact Hsig|].
      exists []. exact Hcalls.
    + destruct H as (Hsome & _ & Hsig). split; assumption.
  - rewrite (initiateCall_null m Hpc).
    pose proof (createPeerConnection_creates PC pc_new pc_call m) as Hc.
    destruct (createPeerConnection m) as [[m1 effs1] [[]|e]].
    + destruct Hc as ([pc1 Hpc1] & Hs1 & _).
      pose proof (initiateCall_outcome m1 pc1 Hpc1) as H.
      destruct (initiateCall m1) as [[m2 effs2] [offer|e]].
      * destruct H as (Hsome & Hinit & Hsig & Hcalls).
        split; [exact Hsome|]. split; [exact Hinit|].
        rewrite signaled_app, calls_app, Hs1, Hsig, Hcalls.
        split; [reflexivity|]. exists (calls effs1). reflexivity.
      * destruct H as (Hsome & _ & Hsig). split; [exact Hsome|].
        rewrite signaled_app, Hs1, Hsig. reflexivity.
    + destruct Hc as (Hsome & Hs1 & _). split; assumption.
Qed.


(** ** Errors of the peer connection *)

(** X11.  With a peer connection in place, [handleAnswer] and
    [handleIceCandidate] make one call on it ([setRemoteDescription] of the
    answer, [addIceCandidate] of the candidate) and complete as that call
    does: normally when it resolves, and with the very error it rejects
    with, after a line on [console.error].  They send nothing, and change
    nothing of the manager but the state of the peer connection. *)
Theorem errors_rethrown_unchanged m pc :
  peerConnection m = Some pc ->
  (forall answer,
     let '(pc', res) := pc_call pc (SetRemoteDescription answer) in
     let '(m', effs, r) := handleAnswer answer m in
     m' = set_peerConnection PC (Some pc') m /\
     calls effs = [SetRemoteDescription answer] /\ signaled effs = [] /\
     r = match res with Normal _ => Normal tt | Throw e => Throw e end /\
     (In (Console error "Error handling answer:") effs <-> exists e, res = Throw e)) /\
  (forall candidate,
     let '(pc', res) := pc_call pc (AddIceCandidate candidate) in
     let '(m', effs, r) := handleIceCandidate candidate m in
     m' = set_peerConnection PC (Some pc') m /\
     calls effs = [AddIceCandidate candidate] /\ signaled effs = [] /\
     r = match res with Normal _ => Normal tt | Throw e => Throw e end /\
     (In (Console error "Error adding ICE candidate:") effs <->
      exists e, res = Throw e)).
Proof.
  intros H. split.
  - intros answer. unfold_m. rewrite H. cbn. rewrite H.
    destruct (pc_call pc (SetRemoteDescription answer)) as [pc' [v|e]]; cbn;
      repeat split.
    + intros [Hf|[Hf|[Hf|[]]]]; discriminate.
    + intros [e He]. discriminate.
    + intros _. exists e. reflexivity.
    + intros _. right. right. left. reflexivity.
  - intros candidate. unfold_m. rewrite H. cbn. rewrite H.
    destruct (pc_call pc (AddIceCandidate candidate)) as [pc' [v|e]]; cbn;
      repeat split.
    + intros [Hf|[Hf|[]]]; discriminate.
    + intros [e He]. discriminate.
    + intros _. exists e. reflexivity.
    + intros _. right. left. reflexivity.
Qed.

(** ** Frames between manager and server *)

Lemma message_type ty k v :
  k <> "type" -> get_prop (message ty k v) "type" = Normal (Some (JStr ty)).
Proof.
  intros Hk. unfold message, obj, get_prop. destruct v as [x|]; cbn [own_props list_to_map];
    cbn; rewrite lookup_insert_eq; reflexivity.
Qed.

Lemma message_payload ty k v :
  k <> "type" -> own_props (message ty k v) !! k = v.
Proof.
  intros Hk. unfold message, obj. destruct v as [x|]; cbn [own_props list_to_map]; cbn.
  - rewrite lookup_insert_ne by congruence. apply lookup_insert_eq.
  - rewrite lookup_insert_ne by congruence. apply lookup_empty.
Qed.

Lemma message_other ty k v p :
  p <> "type" -> p <> k -> own_props (message ty k v) !! p = None.
Proof.
  intros Hp Hk. unfold message, obj. destruct v as [x|]; cbn [own_props list_to_map]; cbn.
  - rewrite !lookup_insert_ne by congruence. apply lookup_empty.
  - rewrite lookup_insert_ne by congruence. apply lookup_empty.
Qed.

(** X12.  What one manager sends, another reads back, when the frame
    arrives as it was built (as it does through a broadcast): the frame that
    [initiateCall] builds for an offer is dispatched by
    [handleSignalingMessage] to [handleOffer] with that same offer, the frame
    that [handleOffer] builds for an answer goes to [handleAnswer] with that
    answer, and the frame of [onicecandidate] goes to [handleIceCandidate]
    with that candidate; an [undefined] payload is read back as
    [undefined]. *)
Theorem signaling_round_trip m v :
  handleSignalingMessage (Normal (message "offer" "offer" v)) m =
    (let '(m', effs, r) := handleOffer v m in
     (m', effs, match r with Normal _ => Normal tt | Throw e => Throw e end)) /\
  handleSignalingMessage (Normal (message "answer" "answer" v)) m =
    handleAnswer v m /\
  handleSignalingMessage (Normal (message "ice-candidate" "candidate" v)) m =
    handleIceCandidate v m.
Proof.
  unfold Manager.handleSignalingMessage.
  rewrite !message_type, !message_payload by discriminate.
  cbn [strict_eq_str String.eqb Ascii.eqb Bool.eqb].
  split; [|split; reflexivity].
  unfold mbind, ret. destruct (handleOffer v m) as [[m' effs] [a|e]]; [|reflexivity].
  rewrite app_nil_r. reflexivity.
Qed.

(** X13.  The frames the manager builds (an offer, an answer, a candidate)
    carry no [to] and no [from].  The server therefore broadcasts each of
    them: from the client [c], every other registered client with an open
    socket receives the frame once, exactly as the manager built it, so
    without any [from]; the sender receives nothing. *)
Theorem manager_frames_broadcast clients c ty k v :
  Relay.wf clients ->
  (ty, k) = ("offer", "offer") \/ (ty, k) = ("answer", "answer") \/
  (ty, k) = ("ice-candidate", "candidate") ->
  let d := message ty k v in
  own_props d !! "to" = None /\ own_props d !! "from" = None /\
  fst (Relay.ws_on_message clients c (Normal d)) = clients /\
  forall r,
    Relay.sent_to r (snd (Relay.ws_on_message clients c (Normal d))) =
    if negb (String.eqb r c) && open_client clients r then [d] else [].
Proof.
  intros Hwf Hshape. cbv zeta.
  assert (k <> "type" /\ k <> "to" /\ k <> "from" /\ is_signal (message ty k v) = true)
    as (Hk & Hto & Hfrom & Hsig).
  { unfold is_signal.
    destruct Hshape as [E|[E|E]]; injection E as -> ->;
      (repeat split; [discriminate..|]);
      rewrite message_type by discriminate; reflexivity. }
  assert (own_props (message ty k v) !! "to" = None) as Hnoto
    by (apply message_other; [discriminate|congruence]).
  split; [exact Hnoto|].
  split; [apply message_other; [discriminate|congruence]|].
  pose proof (signal_broadcast clients c (message ty k v) Hwf Hsig) as H.
  rewrite Hnoto in H. specialize (H eq_refl).
  destruct (Relay.ws_on_message clients c (Normal (message ty k v))) as [clients' effs].
  exact H.
Qed.

End ManagerMore.

(* ===================================================================== *)
(** * Properties of media, data channel and cleanup *)
(* ===================================================================== *)

Section LifecycleFacts.
Import Js Manager Props Lifecycle Studio.

Variable PC : Type.
Variable pc_new : PC.
Variable pc_call : PC -> Call -> PC * Completion (option JsVal).
Variable pc_createDataChannel : PC -> string -> PC * Completion unit.
Variable null_assignment_message : string.

Implicit Types (m : WebRTCManager PC) (pc : PC) (els : Elements).

Local Abbreviation handleOffer := (Manager.handleOffer PC pc_new pc_call).
Local Abbreviation handleAnswer := (Manager.handleAnswer PC pc_call).
Local Abbreviation handleIceCandidate := (Manager.handleIceCandidate PC pc_call).
Local Abbreviation createPeerConnection :=
  (Manager.createPeerConnection PC pc_new pc_call).
Local Abbreviation createDataChannel :=
  (Lifecycle.createDataChannel PC pc_createDataChannel).
Local Abbreviation startLocalMedia :=
  (Lifecycle.startLocalMedia PC null_assignment_message).
Local Abbreviation handleDataChannelMessage := (Lifecycle.handleDataChannelMessage PC).
Local Abbreviation endCall := (Lifecycle.endCall PC).

Lemma stopTracks_stopped tracks : stopped (stopTracks tracks) = tracks.
Proof. induction tracks as [|kind tracks IH]; simpl; congruence. Qed.

Lemma stopTracks_only tracks e :
  In e (stopTracks tracks) ->
  (exists kind, e = TrackStop kind) \/ e = Negotiation (Console log "Stopped track:").
Proof.
  induction tracks as [|kind tracks IH]; simpl; [intros []|].
  intros [<-|[<-|H]]; [left; eexists; reflexivity|right; reflexivity|apply IH, H].
Qed.

Lemma stopped_app effs1 effs2 :
  stopped (effs1 ++ effs2)%list = (stopped effs1 ++ stopped effs2)%list.
Proof.
  induction effs1 as [|[e| |kind|l] effs1 IH]; simpl; congruence.
Qed.

Ltac absurd_in H :=
  exfalso; cbn in H; repeat (destruct H as [H|H]; [discriminate|]); exact H.

Lemma release_effects m :
  let '(m1, effs) := release PC m in
  stopped effs = match localStream m with Some tracks => tracks | None => [] end /\
  (In PcClose effs <-> is_Some (peerConnection m)) /\
  (forall label, In (ChannelClose label) effs <-> dataChannel m = Some label) /\
  release PC m1 = (m1, [Negotiation (Console log "Ending call...")]).
Proof using PC.
  unfold release. cbn [peerConnection localStream dataChannel localVideo
    remoteVideo signaling_connected isInitiator].
  assert (forall e, (forall kind, e <> TrackStop kind) ->
                    e <> Negotiation (Console log "Stopped track:") ->
                    ~ In e (match localStream m with
                            | Some tracks => stopTracks tracks
                            | None => []
                            end)) as Hstop.
  { intros e H1 H2 HIn. destruct (localStream m) as [tracks|]; [|exact HIn].
    destruct (stopTracks_only tracks e HIn) as [[kind ->]| ->]; [apply (H1 kind)|apply H2];
      reflexivity. }
  split; [|split; [|split; [|reflexivity]]].
  - cbn [app stopped]. rewrite !stopped_app.
    destruct (peerConnection m), (localStream m) as [tracks|], (dataChannel m);
      cbn; rewrite ?stopTracks_stopped, ?app_nil_r; reflexivity.
  - cbn [app]. split.
    + intros [Hf|HIn]; [discriminate|].
      apply in_app_or in HIn as [HIn|HIn].
      * destruct (peerConnection m) as [pc|]; [exists pc; reflexivity|destruct HIn].
      * exfalso. apply in_app_or in HIn as [HIn|HIn].
        -- apply (Hstop PcClose); [discriminate..|exact HIn].
        -- destruct (dataChannel m); absurd_in HIn.
    + intros [pc ->]. right. left. reflexivity.
  - intros label. cbn [app]. split.
    + intros [Hf|HIn]; [discriminate|].
      apply in_app_or in HIn as [HIn|HIn].
      { destruct (peerConnection m); absurd_in HIn. }
      apply in_app_or in HIn as [HIn|HIn].
      { exfalso. apply (Hstop (ChannelClose label)); [discriminate..|exact HIn]. }
      destruct (dataChannel m) as [l|]; [|destruct HIn].
      destruct HIn as [Heq|[]]. injection Heq as ->. reflexivity.
    + intros ->. right. apply in_or_app. right. apply in_or_app. right.
      left. reflexivity.
Qed.

Lemma not_in_last (e a b : Effect) effs :
  e <> a -> e <> b -> In e (effs ++ [a; b])%list <-> In e effs.
Proof.
  intros Ha Hb. rewrite in_app_iff. split; [|auto].
  intros [H|[H|[H|[]]]]; [exact H|congruence|congruence].
Qed.

(** X15.  [endCall] always releases what the manager holds and forgets it:
    it closes the peer connection if there is one, stops every track of the
    local stream, in order, closes the data channel if there is one, and
    leaves no peer connection, no stream and no data channel; [isInitiator]
    keeps its value.  When both video elements exist it then empties them,
    closes the signaling channel and completes.  When the local element is
    missing it throws a [TypeError] at that point, with the remote element
    and the signaling channel left as they were; when only the remote
    element is missing it throws after emptying the local one, again without
    closing the signaling channel.  A second [endCall] finds nothing to
    release, changes nothing and completes as the first did. *)
Theorem endCall_releases els m :
  let '(m', effs, r) := endCall els m in
  peerConnection m' = None /\ localStream m' = None /\ dataChannel m' = None /\
  isInitiator m' = isInitiator m /\
  stopped effs = match localStream m with Some tracks => tracks | None => [] end /\
  (In PcClose effs <-> is_Some (peerConnection m)) /\
  (forall label, In (ChannelClose label) effs <-> dataChannel m = Some label) /\
  (r = Normal tt <-> local_is_element els = true /\ remote_is_element els = true) /\
  (r = Normal tt ->
   localVideo m' = None /\ remoteVideo m' = None /\ signaling_connected m' = false) /\
  (r <> Normal tt ->
   r = Throw TypeError /\
   signaling_connected m' = signaling_connected m /\
   remoteVideo m' = remoteVideo m /\
   localVideo m' = (if local_is_element els then None else localVideo m) /\
   ~ In (Negotiation (Console log "Call ended")) effs) /\
  endCall els m' =
    (m',
     if local_is_element els && remote_is_element els
     then [Negotiation (Console log "Ending call...");
           Negotiation (Console log "Disconnected from signaling server");
           Negotiation (Console log "Call ended")]
     else [Negotiation (Console log "Ending call...")],
     r).
Proof using PC.
  unfold Lifecycle.endCall.
  pose proof (release_effects m) as H.
  assert (~ In (Negotiation (Console log "Call ended")) (snd (release PC m))) as Hnot.
  { unfold release. cbn [snd app]. intros [Hf|HIn]; [discriminate|].
    apply in_app_or in HIn as [HIn|HIn].
    { destruct (peerConnection m); absurd_in HIn. }
    apply in_app_or in HIn as [HIn|HIn].
    { destruct (localStream m) as [tracks|]; [|exact HIn].
      destruct (stopTracks_only tracks _ HIn) as [[kind Hf]|Hf]; discriminate. }
    destruct (dataChannel m); absurd_in HIn. }
  assert (peerConnection (fst (release PC m)) = None /\
          localStream (fst (release PC m)) = None /\
          dataChannel (fst (release PC m)) = None /\
          isInitiator (fst (release PC m)) = isInitiator m /\
          signaling_connected (fst (release PC m)) = signaling_connected m /\
          remoteVideo (fst (release PC m)) = remoteVideo m /\
          localVideo (fst (release PC m)) = localVideo m) as Hfields
    by (repeat split).
  destruct (release PC m) as [m1 effs] eqn:Hrel. cbn [fst snd] in H, Hnot, Hfields.
  destruct H as (Hstopped & Hclose & Hchannel & Hagain).
  destruct Hfields as (Hpc & Hls & Hdc & Hinit & Hsig & Hrv & Hlv).
  destruct (local_is_element els), (remote_is_element els);
    cbn [negb andb peerConnection localStream dataChannel isInitiator localVideo
         remoteVideo signaling_connected].
  - (* both elements *)
    rewrite stopped_app, !not_in_last by discriminate.
    cbn [stopped]. rewrite app_nil_r.
    repeat (split; [assumption|]).
    split.
    { intros label. rewrite not_in_last by discriminate. apply Hchannel. }
    split; [split; auto|]. split; [auto|]. split; [congruence|].
    unfold release. rewrite Hpc, Hls, Hdc. reflexivity.
  - repeat (split; [assumption|]).
    split; [split; [discriminate|intros [_ Hf]; discriminate]|].
    split; [discriminate|]. split; [intros _; repeat split; assumption|].
    unfold release. cbn [peerConnection localStream dataChannel]. rewrite Hpc, Hls, Hdc.
    cbn. rewrite Hrv, Hsig, Hinit. reflexivity.
  - repeat (split; [assumption|]).
    split; [split; [discriminate|intros [Hf _]; discriminate]|].
    split; [discriminate|]. split; [intros _; repeat split; assumption|].
    rewrite Hagain. reflexivity.
  - repeat (split; [assumption|]).
    split; [split; [discriminate|intros [Hf _]; discriminate]|].
    split; [discriminate|]. split; [intros _; repeat split; assumption|].
    rewrite Hagain. reflexivity.
Qed.

Lemma endCall_fields els m :
  let '(m', _, _) := endCall els m in
  peerConnection m' = None /\ localStream m' = None.
Proof.
  unfold Lifecycle.endCall, release.
  destruct (local_is_element els), (remote_is_element els); split; reflexivity.
Qed.

(** X16.  After [endCall], whether it completed or threw, the manager is
    where it was before any call:
    [handleAnswer], [handleIceCandidate] and [createDataChannel] throw
    [Error('Peer connection not created')] and leave it as it is, while an
    offer makes it create a new peer connection.  The local stream has been
    released, so that connection is given no track: when [handleOffer] then
    completes, the only calls made are those of the answer. *)
Theorem after_endCall els m :
  let m' := fst (fst (endCall els m)) in
  (forall answer,
     handleAnswer answer m' = (m', [], Throw (Error "Peer connection not created"))) /\
  (forall candidate,
     handleIceCandidate candidate m' =
     (m', [], Throw (Error "Peer connection not created"))) /\
  (forall channelName,
     createDataChannel channelName m' =
     (m', [], Throw (Error "Peer connection not created"))) /\
  (forall offer,
     let '(m'', effs, r) := handleOffer offer m' in
     is_Some (peerConnection m'') /\
     forall answer,
       r = Normal answer ->
       calls effs =
       [SetRemoteDescription offer; CreateAnswer; SetLocalDescription answer]).
Proof.
  cbv zeta.
  pose proof (endCall_fields els m) as H.
  destruct (endCall els m) as [[m' effs0] r0]. cbn [fst].
  destruct H as (Hpc & Hls).
  split; [|split; [|split]].
  - intros answer. apply handleAnswer_null, Hpc.
  - intros candidate. apply handleIceCandidate_null, Hpc.
  - intros channelName. unfold Lifecycle.createDataChannel. rewrite Hpc. reflexivity.
  - intros offer. rewrite (handleOffer_null PC pc_new pc_call m' offer Hpc).
    assert (Manager.createPeerConnection PC pc_new pc_call m' =
            (set_peerConnection PC (Some pc_new) m',
             [Console log "Creating peer connection...";
              Console log "Peer connection created"], Normal tt)) as ->.
    { unfold Manager.createPeerConnection, mbind, emit, modify, get, ret.
      cbn [localStream set_peerConnection]. rewrite Hls. reflexivity. }
    pose proof (handleOffer_outcome PC pc_new pc_call
                  (set_peerConnection PC (Some pc_new) m') pc_new offer eq_refl) as H.
    destruct (handleOffer offer _) as [[m2 effs2] r].
    destruct H as [Hsome H]. split; [exact Hsome|].
    intros answer ->. cbn [app calls]. destruct H as (_ & _ & ->). reflexivity.
Qed.

(** X17.  [handleDataChannelMessage] accepts any data: it never throws,
    whether the data is JSON or not, it only writes to the console, and it
    leaves the manager as it is.  It reports the data as plain text exactly
    when the data is not JSON or is the JSON [null]. *)
Theorem data_channel_message_never_throws parsed m :
  let '(m', effs, r) := handleDataChannelMessage parsed m in
  m' = m /\ r = Normal tt /\ calls effs = [] /\ signaled effs = [] /\
  (In (Console log "Received text:") effs <->
   (exists e, parsed = Throw e) \/ parsed = Normal JNull).
Proof.
  unfold Lifecycle.handleDataChannelMessage, try_catch, mbind, emit, throw, ret.
  destruct parsed as [message|e].
  - destruct (get_prop message "type") as [type|e] eqn:Htype.
    + assert (message <> JNull) as Hnn by (intros ->; discriminate Htype).
      assert (~ ((exists e, Normal message = Throw e) \/ Normal message = Normal JNull))
        as Hno.
      { intros [[e He]|He]; [discriminate|]. injection He as He. exact (Hnn He). }
      destruct (strict_eq_str type "chat"); [|destruct (strict_eq_str type "file")];
        cbn; (repeat split; try reflexivity); try (intros H; exfalso; exact (Hno H)).
      * intros [Hf|[Hf|[]]]; discriminate.
      * intros [Hf|[Hf|[]]]; discriminate.
      * intros [Hf|[]]; discriminate.
    + assert (message = JNull) as -> by (destruct message; (reflexivity || discriminate)).
      cbn. repeat split; auto.
  - cbn. repeat split.
    + intros _. left. exists e. reflexivity.
    + intros _. left. reflexivity.
Qed.

(** X18.  [startLocalMedia] keeps the stream whenever it gets one.  When
    the local video element exists, the method returns the stream and the
    manager changes in [localStream] and in the local video element only.
    When the element is missing, the stream is already in [localStream] when
    the assignment to the element throws: the method throws, and the stream
    stays.  When no stream is obtained, the manager is left as it was.  An
    error thrown is always an [Error] whose message is ["Failed to access
    media: "] followed by the message of the failure.  In both cases in
    which a stream was obtained, the peer connection created next is given
    the tracks of that stream, in order, until a call throws, and all of
    them when none does. *)
Theorem local_media_then_connection els m :
  (forall stream,
     let '(m1, effs1, r1) := startLocalMedia els (inl stream) m in
     (if local_is_element els
      then m1 = set_localMedia PC (Some stream) m /\ r1 = Normal stream
      else m1 = set_localStream PC (Some stream) m /\
           r1 = Throw (Error ("Failed to access media: " ++ null_assignment_message))) /\
     localStream m1 = Some stream /\ calls effs1 = [] /\
     let '(pc', made, res) :=
       call_sequence pc_call pc_new (List.map AddTrack stream) in
     let '(m2, effs, r) := createPeerConnection m1 in
     m2 = set_peerConnection PC (Some pc') m1 /\ calls effs = made /\ r = res /\
     made `prefix_of` List.map AddTrack stream /\
     (r = Normal tt -> made = List.map AddTrack stream) /\
     (resolves pc_call -> r = Normal tt)) /\
  (forall message,
     startLocalMedia els (inr message) m =
     (m,
      [Console log "Requesting user media..."; Console error "Error accessing media:"],
      Throw (Error ("Failed to access media: " ++ message)))).
Proof.
  split; [|reflexivity].
  intros stream. unfold Lifecycle.startLocalMedia.
  assert (forall m1, localStream m1 = Some stream ->
            let '(pc', made, res) :=
              call_sequence pc_call pc_new (List.map AddTrack stream) in
            let '(m2, effs, r) := createPeerConnection m1 in
            m2 = set_peerConnection PC (Some pc') m1 /\ calls effs = made /\ r = res /\
            made `prefix_of` List.map AddTrack stream /\
            (r = Normal tt -> made = List.map AddTrack stream) /\
            (resolves pc_call -> r = Normal tt)) as Hnext.
  { intros m1 Hls. pose proof (createPeerConnection_spec PC pc_new pc_call m1) as H.
    cbv zeta in H. rewrite Hls in H.
    destruct (call_sequence pc_call pc_new (List.map AddTrack stream))
      as [[pc' made] res].
    destruct (createPeerConnection m1) as [[m2 effs] r].
    destruct H as (Hm & Hc & Hr & _ & Hpre & Hall & _ & Hres).
    repeat split; assumption. }
  destruct (local_is_element els).
  - split; [split; reflexivity|]. split; [reflexivity|]. split; [reflexivity|].
    apply Hnext. reflexivity.
  - split; [split; reflexivity|]. split; [reflexivity|]. split; [reflexivity|].
    apply Hnext. reflexivity.
Qed.

End LifecycleFacts.

Section MoreScenarios.
Import Js Manager Props Scenario Frames Studio.

Lemma wf_three_clients : Relay.wf three_clients.
Proof. unfold Relay.wf. simpl. apply (bool_decide_unpack _). vm_compute. exact I. Defined.

Lemma connection_registers_witness :
  Relay.wf (fst (fst (Relay.wss_on_connection three_clients (socket 4) "0.d" "0.4"))).
Proof.
  pose proof (connection_registers three_clients (socket 4) "0.d" "0.4") as H.
  destruct (Relay.wss_on_connection three_clients (socket 4) "0.d" "0.4")
    as [[clients' clientId] effs].
  destruct H as (_ & _ & _ & H). apply H, wf_three_clients.
Defined.

Lemma close_keeps_others_witness :
  Relay.map_get "b2" (fst (Relay.ws_on_close three_clients "a1")) = Some (socket 2) /\
  Relay.wf (fst (Relay.ws_on_close three_clients "a1")).
Proof.
  destruct (close_keeps_others three_clients "a1") as (Hget & _ & Hwf).
  split; [rewrite (Hget "b2"); [reflexivity|discriminate]|apply Hwf, wf_three_clients].
Defined.

Lemma createPeerConnection_adds_tracks_witness :
  calls (snd (fst (createPeerConnection (list Call) [] accepting with_media))) =
    [AddTrack "audio"; AddTrack "video"] /\
  snd (createPeerConnection (list Call) [] accepting with_media) = Normal tt.
Proof.
  pose proof (createPeerConnection_adds_tracks (list Call) [] accepting with_media) as H.
  cbv zeta in H.
  assert (localStream with_media = Some ["audio"; "video"]) as Hls by reflexivity.
  rewrite Hls in H.
  destruct (call_sequence accepting [] (List.map AddTrack ["audio"; "video"]))
    as [[pc' made] res] eqn:E.
  vm_compute in E. injection E as _ <- _.
  destruct (createPeerConnection (list Call) [] accepting with_media)
    as [[m' effs] r].
  destruct H as (_ & Hc & _ & _ & _ & _ & _ & Hres).
  split; [exact Hc|apply Hres, accepting_resolves].
Defined.

Lemma errors_rethrown_unchanged_witness :
  peerConnection offering = Some [CreateOffer; SetLocalDescription (Some local_offer)] /\
  snd (handleAnswer (list Call) accepting (Some local_answer) offering) = Normal tt.
Proof.
  split; [reflexivity|].
  destruct (errors_rethrown_unchanged (list Call) accepting offering
              [CreateOffer; SetLocalDescription (Some local_offer)] eq_refl) as [H _].
  specialize (H (Some local_answer)).
  destruct (accepting _ (SetRemoteDescription (Some local_answer))) as [pc' res] eqn:E.
  destruct (handleAnswer _ _ _ _) as [[m' effs] r].
  destruct H as (_ & _ & _ & -> & _).
  vm_compute in E. injection E as _ <-. reflexivity.
Defined.

Lemma manager_frames_broadcast_witness :
  Relay.sent_to "b2"
    (snd (Relay.ws_on_message three_clients "a1"
            (Normal (message "offer" "offer" (Some local_offer))))) =
  [message "offer" "offer" (Some local_offer)].
Proof.
  destruct (manager_frames_broadcast three_clients "a1" "offer" "offer" (Some local_offer)
              wf_three_clients (or_introl eq_refl)) as (_ & _ & _ & H).
  apply (H "b2").
Defined.

Lemma endCall_releases_witness :
  signaling_connected (fst (fst (Lifecycle.endCall (list Call) page with_media))) = false /\
  snd (Lifecycle.endCall (list Call) no_elements with_media) = Throw TypeError.
Proof.
  split.
  - pose proof (endCall_releases (list Call) page with_media) as H.
    destruct (Lifecycle.endCall (list Call) page with_media) as [[m' effs] r] eqn:E.
    destruct H as (_ & _ & _ & _ & _ & _ & _ & Hr & Hnormal & _).
    apply Hnormal, Hr. split; reflexivity.
  - pose proof (endCall_releases (list Call) no_elements with_media) as H.
    destruct (Lifecycle.endCall (list Call) no_elements with_media)
      as [[m' effs] r] eqn:E.
    destruct H as (_ & _ & _ & _ & _ & _ & _ & Hr & _ & Hthrow & _).
    apply Hthrow. intros Hn. apply Hr in Hn as [Hf _]. discriminate.
Defined.

Lemma after_endCall_witness :
  calls (snd (fst (handleOffer (list Call) [] accepting (Some remote_offer)
                     (fst (fst (Lifecycle.endCall (list Call) page with_media)))))) =
  [SetRemoteDescription (Some remote_offer); CreateAnswer;
   SetLocalDescription (Some local_answer)].
Proof.
  destruct (after_endCall (list Call) [] accepting channels page with_media)
    as (_ & _ & _ & H).
  specialize (H (Some remote_offer)).
  destruct (handleOffer _ _ _ _ _) as [[m'' effs] r] eqn:E.
  destruct H as [_ H]. apply H.
  vm_compute in E. injection E as _ _ <-. reflexivity.
Defined.

Lemma local_media_then_connection_witness :
  snd (createPeerConnection (list Call) [] accepting with_media) = Normal tt /\
  localStream (fst (fst (Lifecycle.startLocalMedia (list Call) v8_message no_elements
                           (inl ["audio"; "video"]) (new_manager (list Call))))) =
    Some ["audio"; "video"].
Proof.
  split.
  - destruct (local_media_then_connection (list Call) [] accepting v8_message page
                (new_manager (list Call))) as [H _].
    specialize (H ["audio"; "video"]).
    destruct (Lifecycle.startLocalMedia _ _ _ _ _) as [[m1 e1] r1] eqn:E1.
    assert (m1 = with_media) as -> by (unfold with_media; rewrite E1; reflexivity).
    destruct H as (_ & _ & _ & H).
    destruct (call_sequence accepting [] _) as [[pc' made] res].
    destruct (createPeerConnection _ _ _ with_media) as [[m2 effs] r].
    destruct H as (_ & _ & _ & _ & _ & H). apply H, accepting_resolves.
  - destruct (local_media_then_connection (list Call) [] accepting v8_message no_elements
                (new_manager (list Call))) as [H _].
    specialize (H ["audio"; "video"]).
    destruct (Lifecycle.startLocalMedia _ _ _ _ _) as [[m1 e1] r1].
    destruct H as (_ & H & _). exact H.
Defined.

End MoreScenarios.
